(** * deploy_to_github.py: a shallow embedding and its trace properties

    The script is a straight line of effects: console prints, existence
    checks, one recursive deletion and a series of shell commands.  The
    embedding keeps that shape.  The operating system is an interface
    ([Host]) and so is the console ([Console]); a [Machine] is a host with
    its console.  The script is written in a small monad that threads the
    state of the host, collects the observable events in order and carries
    Python exceptions, those of [print] included.  The properties below are
    statements about the event trace (or the result) of [main]: most of them
    on an arbitrary host whose console takes every text, the exit status on
    an arbitrary machine. *)

From Stdlib Require Import String Ascii List ZArith Bool Lia PeanoNat.
Import ListNotations.
Local Open Scope string_scope.

(** ** Values exchanged with the host *)

(** Instances of Python's [Exception] hierarchy: what [subprocess.run] raises
    when spawning or running fails ([OSError], [ValueError],
    [UnicodeDecodeError], ...) and what [print] raises when the console
    refuses a text ([UnicodeEncodeError], [OSError]).  Only the text [str(e)]
    is observed.  Asynchronous interrupts are not part of the model. *)
Inductive exn : Type :=
| Exception (msg : string).

Definition str (e : exn) : string :=
  match e with Exception msg => msg end.

(** [subprocess.CompletedProcess], with [text=True] and
    [capture_output=True]. *)
Record CompletedProcess : Type := mkCompleted {
  returncode : Z;
  stdout : string;
  stderr : string
}.

(** What the outside world can see of a run, in order. *)
Inductive event : Type :=
| EvPrint (line : string)
| EvExists (path : string) (found : bool)
| EvRmtree (path : string) (err : option exn)
| EvSpawn (cmd : string) (res : exn + CompletedProcess).

Definition trace : Type := list event.

(** ** The host interface *)

(** [path_exists] is [os.path.exists] (it never raises), [remove_tree] is the
    recursive deletion attempted by [shutil.rmtree], reporting the error it
    met if any, and [spawn] is [subprocess.run(cmd, shell=True, ...)]: either
    the call raises or the child completes with an exit status. *)
Record Host : Type := mkHost {
  World : Type;
  path_exists : World -> string -> bool;
  remove_tree : World -> string -> World * option exn;
  spawn : World -> string -> World * (exn + CompletedProcess)
}.

(** [sys.stdout], as [print] and the interpreter use it on a host whose
    states are [W]: [write] is one call of [print], which either puts the text
    on the console or raises ([UnicodeEncodeError] when the console cannot
    encode it, [OSError] when the write fails); [flush] is the last flush of
    the stream, when the interpreter finishes, with the error it met if
    any. *)
Record Console (W : Type) : Type := mkConsole {
  write : W -> string -> W * option exn;
  flush : W -> option exn
}.

Arguments write {W} c w text.
Arguments flush {W} c w.

(** A host with its console. *)
Record Machine : Type := mkMachine {
  host : Host;
  console : Console (World host)
}.

(** The console that takes every text and flushes without error. *)
Definition steady (W : Type) : Console W :=
  mkConsole W (fun w _ => (w, None)) (fun _ => None).

(** A host seen with a steady console.  Wherever a host stands for a
    machine, its console is the steady one. *)
Definition reliable (os : Host) : Machine := mkMachine os (steady (World os)).

Coercion reliable : Host >-> Machine.

(** ** The effect monad *)

Section Effects.

Variable os : Host.

Definition M (A : Type) : Type :=
  World os -> World os * trace * (exn + A).

Definition ret {A : Type} (a : A) : M A :=
  fun w => (w, [], inr a).

Definition bind {A B : Type} (m : M A) (k : A -> M B) : M B :=
  fun w =>
    match m w with
    | (w1, t1, inl e) => (w1, t1, inl e)
    | (w1, t1, inr a) =>
        match k a w1 with
        | (w2, t2, r) => (w2, (t1 ++ t2)%list, r)
        end
    end.

Definition raise {A : Type} (e : exn) : M A :=
  fun w => (w, [], inl e).

(** [try: body / except Exception as e: handler e] *)
Definition try_except {A : Type} (body : M A) (handler : exn -> M A) : M A :=
  fun w =>
    match body w with
    | (w1, t1, inl e) =>
        match handler e w1 with
        | (w2, t2, r) => (w2, (t1 ++ t2)%list, r)
        end
    | (w1, t1, inr a) => (w1, t1, inr a)
    end.

End Effects.

Arguments ret {os A} a w.
Arguments bind {os A B} m k w.
Arguments raise {os A} e w.
Arguments try_except {os A} body handler w.

Notation "x <- m ;; k" := (bind m (fun x => k))
  (at level 61, m at next level, right associativity).
Notation "m ;; k" := (bind m (fun _ => k))
  (at level 61, right associativity).

(** ** Python statements and library calls *)

Section Script.

Variable os : Host.

(** [if b: m] without an [else]. *)
Definition when (b : bool) (m : M os unit) : M os unit :=
  if b then m else ret tt.

(** [for x in l: body x] *)
Fixpoint for_each {A : Type} (l : list A) (body : A -> M os unit) : M os unit :=
  match l with
  | [] => ret tt
  | x :: l' => body x ;; for_each l' body
  end.

(** *** Primitive effects *)

Definition os_path_exists (path : string) : M os bool :=
  fun w => (w, [EvExists path (path_exists os w path)],
            inr (path_exists os w path)).

(** [shutil.rmtree(path, ignore_errors=...)]: with [ignore_errors] an error
    of the deletion is dropped, without it the error is raised. *)
Definition shutil_rmtree (path : string) (ignore_errors : bool) : M os unit :=
  fun w =>
    match remove_tree os w path with
    | (w1, None) => (w1, [EvRmtree path None], inr tt)
    | (w1, Some e) =>
        (w1, [EvRmtree path (Some e)],
         if ignore_errors then inr tt else inl e)
    end.

Definition subprocess_run (cmd : string) : M os CompletedProcess :=
  fun w =>
    match spawn os w cmd with
    | (w1, r) => (w1, [EvSpawn cmd r], r)
    end.

End Script.

Arguments when {os} b m w.
Arguments for_each {os A} l body w.

(** ** The script *)

Section Program.

Variable pc : Machine.

Local Abbreviation os := (host pc).

(** [print(line)]: the text reaches the console, or the call raises and
    nothing is printed. *)
Definition print (line : string) : M os unit :=
  fun w =>
    match write (console pc) w line with
    | (w1, None) => (w1, [EvPrint line], inr tt)
    | (w1, Some e) => (w1, [], inl e)
    end.

Definition run_cmd (cmd : string) : M os bool :=
  try_except
    (result <- subprocess_run os cmd ;;
     when (negb (returncode result =? 0)%Z)
          (print ("Error: " ++ stderr result)) ;;
     ret (returncode result =? 0)%Z)
    (fun e =>
       print ("Exception: " ++ str e) ;;
       ret false).

Definition LF : string := String (ascii_of_nat 10) EmptyString.
Definition DQ : string := String (ascii_of_nat 34) EmptyString.

Definition essential_files : list string :=
  [ "package.json";
    "REPOSITORY_MANIFEST.md";
    "SAAS_REQUIREMENTS.md" ].

Definition commit_msg : string :=
  "Initial commit: NexStudio - SaaS Platform" ++ LF ++
  LF ++
  "NexStudio is an enterprise-grade visual app builder available exclusively at https://nexstudio.dev" ++ LF ++
  LF ++
  "This is a SaaS-only platform with domain-lock enforcement." ++ LF ++
  "Repository: https://github.com/ehudso7/nexus-studio".

Definition dirs_to_add : list string :=
  [ "packages/domain-lock";
    "apps/web/middleware.ts";
    ".github";
    "docs";
    "nginx" ].

Definition main : M os unit :=
  print "🚀 Deploying NexStudio to GitHub..." ;;
  (* Clean up *)
  print "🧹 Cleaning up old git repository..." ;;
  present <- os_path_exists os ".git" ;;
  when present (shutil_rmtree os ".git" true) ;;
  (* Initialize git *)
  print "📁 Initializing new git repository..." ;;
  inited <- run_cmd "git init -b main" ;;
  if negb inited then ret tt else
  (* Configure git *)
  run_cmd "git config core.autocrlf false" ;;
  run_cmd "git config core.filemode false" ;;
  run_cmd "git config core.compression 0" ;;
  (* Add remote *)
  print "🔗 Adding GitHub remote..." ;;
  run_cmd "git remote add origin https://github.com/ehudso7/nexus-studio.git" ;;
  (* Create commit with essential files first *)
  print "📝 Adding essential files..." ;;
  for_each essential_files (fun file =>
    found <- os_path_exists os file ;;
    when found (run_cmd ("git add " ++ file) ;; ret tt)) ;;
  (* Commit what we have *)
  print "💾 Creating initial commit..." ;;
  run_cmd ("git commit -m " ++ DQ ++ commit_msg ++ DQ) ;;
  (* Force push *)
  print "⬆️  Pushing to GitHub..." ;;
  pushed <- run_cmd "git push -f origin main" ;;
  (if pushed
   then print "✅ Successfully pushed essential files!"
   else print "❌ Failed to push. You may need to authenticate with GitHub." ;;
        print "Run: git push -f origin main") ;;
  (* Try to add more files in batches *)
  print (LF ++ "📦 Adding additional files in batches...") ;;
  for_each dirs_to_add (fun dir_path =>
    found <- os_path_exists os dir_path ;;
    when found
      (print ("Adding " ++ dir_path ++ "...") ;;
       staged <- run_cmd ("git add " ++ dir_path) ;;
       when staged
         (run_cmd ("git commit -m " ++ DQ ++ "Add " ++ dir_path ++ DQ) ;;
          run_cmd "git push origin main" ;;
          ret tt))) ;;
  print (LF ++ "✅ Deployment complete!") ;;
  print "Repository: https://github.com/ehudso7/nexus-studio" ;;
  print (LF ++ "Note: Some files may have been skipped due to corruption.") ;;
  print "The essential SaaS platform files have been pushed.".

(** [if __name__ == "__main__": main()]: when an exception escapes the
    module body the interpreter prints the traceback and ends with status 1;
    when the body completes it flushes the console and ends with status 0,
    or with status 120 when that flush fails. *)
Definition script (w : World os) : World os * trace * Z :=
  match main w with
  | (w1, t, inl _) => (w1, t, 1%Z)
  | (w1, t, inr _) =>
      match flush (console pc) w1 with
      | None => (w1, t, 0%Z)
      | Some _ => (w1, t, 120%Z)
      end
  end.

End Program.

(** ** Reading a run *)

Section Run.

Variable os : Host.

Definition final_world {A : Type} (m : M os A) (w : World os) : World os :=
  fst (fst (m w)).
Definition events {A : Type} (m : M os A) (w : World os) : trace :=
  snd (fst (m w)).
Definition outcome {A : Type} (m : M os A) (w : World os) : exn + A :=
  snd (m w).

End Run.

Arguments final_world {os A} m w.
Arguments events {os A} m w.
Arguments outcome {os A} m w.

(** What [run_cmd] answers for a given result of [subprocess.run]. *)
Definition succeeded (r : exn + CompletedProcess) : bool :=
  match r with
  | inr p => (returncode p =? 0)%Z
  | inl _ => false
  end.

(** The shell commands of a trace with their verdicts, in order. *)
Fixpoint steps (t : trace) : list (string * bool) :=
  match t with
  | [] => []
  | EvSpawn cmd r :: t' => (cmd, succeeded r) :: steps t'
  | _ :: t' => steps t'
  end.

Definition commands (t : trace) : list string := map fst (steps t).

Definition count_cmd (cmd : string) (t : trace) : nat :=
  count_occ string_dec (commands t) cmd.

(** The verdict of the first run of [cmd] in the trace. *)
Fixpoint verdict (cmd : string) (t : trace) : option bool :=
  match t with
  | [] => None
  | EvSpawn c r :: t' => if String.eqb cmd c then Some (succeeded r) else verdict cmd t'
  | _ :: t' => verdict cmd t'
  end.

(** The answers [os.path.exists path] got, in order. *)
Fixpoint checks (path : string) (t : trace) : list bool :=
  match t with
  | [] => []
  | EvExists p b :: t' => if String.eqb path p then b :: checks path t' else checks path t'
  | _ :: t' => checks path t'
  end.

(** The paths handed to [shutil.rmtree], in order. *)
Fixpoint deletions (t : trace) : list string :=
  match t with
  | [] => []
  | EvRmtree p _ :: t' => p :: deletions t'
  | _ :: t' => deletions t'
  end.

(** The events up to the next existence check. *)
Fixpoint until_next_check (t : trace) : trace :=
  match t with
  | [] => []
  | EvExists _ _ :: _ => []
  | e :: t' => e :: until_next_check t'
  end.

(** The cycle of [path]: the answer of its existence check and the events
    that follow it, up to the existence check of the next path. *)
Fixpoint cycle (path : string) (t : trace) : option (bool * trace) :=
  match t with
  | [] => None
  | EvExists p b :: t' =>
      if String.eqb path p then Some (b, until_next_check t') else cycle path t'
  | _ :: t' => cycle path t'
  end.

(** The command strings the script builds. *)
Definition init_cmd : string := "git init -b main".
Definition stage_cmd (path : string) : string := "git add " ++ path.
Definition initial_commit_cmd : string := "git commit -m " ++ DQ ++ commit_msg ++ DQ.
Definition force_push_cmd : string := "git push -f origin main".
Definition commit_cmd (path : string) : string :=
  "git commit -m " ++ DQ ++ "Add " ++ path ++ DQ.
Definition push_cmd : string := "git push origin main".
Definition setup_cmds : list string :=
  [ "git config core.autocrlf false";
    "git config core.filemode false";
    "git config core.compression 0";
    "git remote add origin https://github.com/ehudso7/nexus-studio.git" ].

(** Membership in a list of strings. *)
Definition mem (s : string) (l : list string) : bool :=
  existsb (String.eqb s) l.

(** ** A simulated host, to run the script on concrete scenarios *)

Module Sim.

(** The files present, the commands that exit with status 1, the commands
    that cannot be spawned, and whether deletions are refused. *)
Record disk : Type := mkDisk {
  present : list string;
  failing : list string;
  broken : list string;
  locked : bool
}.

Definition sim_exists (d : disk) (path : string) : bool :=
  mem path (present d).

Definition sim_remove (d : disk) (path : string) : disk * option exn :=
  if locked d
  then (d, Some (Exception "Permission denied"))
  else (mkDisk (filter (fun p => negb (String.eqb path p)) (present d))
               (failing d) (broken d) (locked d), None).

Definition sim_spawn (d : disk) (cmd : string) : disk * (exn + CompletedProcess) :=
  if mem cmd (broken d) then (d, inl (Exception "cannot spawn"))
  else if mem cmd (failing d) then (d, inr (mkCompleted 1 "" "fatal"))
  else (d, inr (mkCompleted 0 "" "")).

Definition host : Host := mkHost disk sim_exists sim_remove sim_spawn.

End Sim.

(** Scenarios used below. *)
Module Scenario.

(** Everything is there and every command works. *)
Definition smooth : Sim.disk :=
  Sim.mkDisk (".git" :: essential_files ++ dirs_to_add) [] [] false.

(** [git init] exits with a failure status. *)
Definition no_init : Sim.disk :=
  Sim.mkDisk (".git" :: essential_files ++ dirs_to_add) [init_cmd] [] false.

(** The old metadata directory cannot be deleted, one configuration command
    cannot be spawned, the remote is refused; only [package.json] is among
    the essential files; staging [docs] fails. *)
Definition rough : Sim.disk :=
  Sim.mkDisk [".git"; "package.json"; "docs"; "nginx"]
             ["git add docs";
              "git remote add origin https://github.com/ehudso7/nexus-studio.git"]
             ["git config core.filemode false"]
             true.

(** No essential file is present, and the two commits that are attempted
    fail: the first one, and the one of [docs]. *)
Definition bare : Sim.disk :=
  Sim.mkDisk ["docs"; "nginx"]
             [initial_commit_cmd; commit_cmd "docs"]
             [] false.

End Scenario.

(** ** The shape of a run *)

(** What [run_cmd] prints for a result of [subprocess.run]. *)
Definition complaint (r : exn + CompletedProcess) : trace :=
  match r with
  | inl e => [EvPrint ("Exception: " ++ str e)]
  | inr p => if (returncode p =? 0)%Z then [] else [EvPrint ("Error: " ++ stderr p)]
  end.

(** The events of one call of [run_cmd]. *)
Definition ran (cmd : string) (r : exn + CompletedProcess) : trace :=
  EvSpawn cmd r :: complaint r.

(** The traces of the loop over the essential files. *)
Inductive staged : list string -> trace -> Prop :=
| staged_nil : staged [] []
| staged_absent f l t :
    staged l t -> staged (f :: l) (EvExists f false :: t)
| staged_present f l t r :
    staged l t ->
    staged (f :: l) (EvExists f true :: (ran (stage_cmd f) r ++ t)%list).

(** The traces of the loop over the additional paths. *)
Inductive batched : list string -> trace -> Prop :=
| batched_nil : batched [] []
| batched_absent p l t :
    batched l t -> batched (p :: l) (EvExists p false :: t)
| batched_refused p l t r :
    succeeded r = false ->
    batched l t ->
    batched (p :: l)
      (EvExists p true :: EvPrint ("Adding " ++ p ++ "...") ::
       (ran (stage_cmd p) r ++ t)%list)
| batched_pushed p l t r rc rp :
    succeeded r = true ->
    batched l t ->
    batched (p :: l)
      (EvExists p true :: EvPrint ("Adding " ++ p ++ "...") ::
       (ran (stage_cmd p) r ++ ran (commit_cmd p) rc ++ ran push_cmd rp ++ t)%list).

(** The last four lines of a complete run. *)
Definition closing : trace :=
  [ EvPrint (LF ++ "✅ Deployment complete!");
    EvPrint "Repository: https://github.com/ehudso7/nexus-studio";
    EvPrint (LF ++ "Note: Some files may have been skipped due to corruption.");
    EvPrint "The essential SaaS platform files have been pushed." ].

(** What is printed after the forced push. *)
Definition push_report (pushed : bool) : trace :=
  if pushed
  then [EvPrint "✅ Successfully pushed essential files!"]
  else [EvPrint "❌ Failed to push. You may need to authenticate with GitHub.";
        EvPrint "Run: git push -f origin main"].

(** The events from the first print to the verdict of [git init]. *)
Inductive opened : bool -> trace -> Prop :=
| opened_fresh r :
    opened (succeeded r)
      (EvPrint "🚀 Deploying NexStudio to GitHub..." ::
       EvPrint "🧹 Cleaning up old git repository..." ::
       EvExists ".git" false ::
       EvPrint "📁 Initializing new git repository..." ::
       ran init_cmd r)
| opened_cleaned e r :
    opened (succeeded r)
      (EvPrint "🚀 Deploying NexStudio to GitHub..." ::
       EvPrint "🧹 Cleaning up old git repository..." ::
       EvExists ".git" true ::
       EvRmtree ".git" e ::
       EvPrint "📁 Initializing new git repository..." ::
       ran init_cmd r).

(** The events after a successful [git init]. *)
Inductive deployed : trace -> Prop :=
| deployed_intro r1 r2 r3 r4 te rc rf tb :
    staged essential_files te ->
    batched dirs_to_add tb ->
    deployed
      (ran "git config core.autocrlf false" r1 ++
       ran "git config core.filemode false" r2 ++
       ran "git config core.compression 0" r3 ++
       EvPrint "🔗 Adding GitHub remote..." ::
       ran "git remote add origin https://github.com/ehudso7/nexus-studio.git" r4 ++
       EvPrint "📝 Adding essential files..." ::
       te ++
       EvPrint "💾 Creating initial commit..." ::
       ran initial_commit_cmd rc ++
       EvPrint "⬆️  Pushing to GitHub..." ::
       ran force_push_cmd rf ++
       push_report (succeeded rf) ++
       EvPrint (LF ++ "📦 Adding additional files in batches...") ::
       tb ++
       closing)%list.

(** The traces of [main]. *)
Inductive main_trace : trace -> Prop :=
| main_aborted t : opened false t -> main_trace t
| main_completed t t' : opened true t -> deployed t' -> main_trace (t ++ t')%list.

(** A computation that never raises, with a description of what it returns
    and emits. *)
Definition emits {os : Host} {A : Type} (m : M os A) (P : A -> trace -> Prop) : Prop :=
  forall w, exists a, outcome m w = inr a /\ P a (events m w).

(** Events that are not existence checks. *)
Definition is_check (e : event) : bool :=
  match e with EvExists _ _ => true | _ => false end.

Definition quiet (t : trace) : Prop := Forall (fun e => is_check e = false) t.

(** The commands of one cycle of the additional paths, with their verdicts. *)
Inductive cycle_steps (p : string) : bool -> list (string * bool) -> Prop :=
| cycle_absent : cycle_steps p false []
| cycle_refused : cycle_steps p true [(stage_cmd p, false)]
| cycle_pushed c ps :
    cycle_steps p true [(stage_cmd p, true); (commit_cmd p, c); (push_cmd, ps)].

(** The number of staging commands for essential files, and the number of
    essential files found on disk. *)
Definition is_essential_stage (cmd : string) : bool :=
  mem cmd (map stage_cmd essential_files).

Definition essential_stagings (t : trace) : nat :=
  length (filter is_essential_stage (commands t)).

Definition essential_found (e : event) : bool :=
  match e with
  | EvExists f true => mem f essential_files
  | _ => false
  end.

Definition essentials_on_disk (t : trace) : nat :=
  length (filter essential_found t).

(** The reading of the additional-paths loop in which nothing depends on the
    staging verdict: every path found on disk gets its three commands. *)
Definition every_step_attempted (os : Host) (w : World os) : Prop :=
  forall p seg,
    In p dirs_to_add ->
    cycle p (events (main os) w) = Some (true, seg) ->
    commands seg = [stage_cmd p; commit_cmd p; push_cmd].

(** ** Further readings of a trace *)

(** The paths handed to [os.path.exists], in order. *)
Fixpoint probes (t : trace) : list string :=
  match t with
  | [] => []
  | EvExists p _ :: t' => p :: probes t'
  | _ :: t' => probes t'
  end.

(** The texts printed, in order: one for each call of [print] that reached
    the console.  A text is what the call was given; it may hold several
    lines of the console. *)
Fixpoint lines (t : trace) : list string :=
  match t with
  | [] => []
  | EvPrint line :: t' => line :: lines t'
  | _ :: t' => lines t'
  end.

(** Whether the first existence check of [path] found it. *)
Definition found_in (t : trace) (path : string) : bool :=
  match checks path t with
  | b :: _ => b
  | [] => false
  end.

(** Whether the first run of [cmd] succeeded. *)
Definition passed (t : trace) (cmd : string) : bool :=
  match verdict cmd t with
  | Some b => b
  | None => false
  end.

(** The commands of one cycle of the additional paths, given what the cycle
    observes. *)
Definition cycle_plan (found staged_ok : string -> bool) (p : string) : list string :=
  if found p
  then stage_cmd p :: (if staged_ok p then [commit_cmd p; push_cmd] else [])
  else [].

(** The commands of a whole run, given what the run observes: the verdict of
    [git init], which paths are found, and which additional paths are staged
    successfully. *)
Definition plan (inited : bool) (found staged_ok : string -> bool) : list string :=
  init_cmd ::
  (if inited
   then (setup_cmds ++
         map stage_cmd (filter found essential_files) ++
         [initial_commit_cmd; force_push_cmd] ++
         flat_map (cycle_plan found staged_ok) dirs_to_add)%list
   else []).

(** The commands of the run in which everything is found and succeeds. *)
Definition full_plan : list string :=
  plan true (fun _ => true) (fun _ => true).

(** [subseq l l']: [l] is [l'] with some elements left out. *)
Inductive subseq {A : Type} : list A -> list A -> Prop :=
| subseq_nil : subseq [] []
| subseq_keep x l l' : subseq l l' -> subseq (x :: l) (x :: l')
| subseq_drop x l l' : subseq l l' -> subseq l (x :: l').

Fixpoint starts_with (pre s : string) : bool :=
  match pre with
  | EmptyString => true
  | String a pre' =>
      match s with
      | EmptyString => false
      | String b s' => Ascii.eqb a b && starts_with pre' s'
      end
  end.

(** The texts [run_cmd] prints about a failure: those that start with
    [Error: ] or [Exception: ]. *)
Definition is_diagnostic (line : string) : bool :=
  starts_with "Error: " line || starts_with "Exception: " line.

(** The number of calls of [print] with such a text. *)
Definition diagnostics (t : trace) : nat :=
  length (filter is_diagnostic (lines t)).

(** The number of commands that failed. *)
Definition failures (t : trace) : nat :=
  length (filter (fun s : string * bool => negb (snd s)) (steps t)).

(** The lines [main] prints unconditionally, apart from the report on the
    forced push. *)
Definition fixed_lines : list string :=
  [ "🚀 Deploying NexStudio to GitHub...";
    "🧹 Cleaning up old git repository...";
    "📁 Initializing new git repository...";
    "🔗 Adding GitHub remote...";
    "📝 Adding essential files...";
    "💾 Creating initial commit...";
    "⬆️  Pushing to GitHub...";
    LF ++ "📦 Adding additional files in batches...";
    LF ++ "✅ Deployment complete!";
    "Repository: https://github.com/ehudso7/nexus-studio";
    LF ++ "Note: Some files may have been skipped due to corruption.";
    "The essential SaaS platform files have been pushed." ].

(** The line announcing the cycle of an additional path. *)
Definition adding_line (p : string) : string := "Adding " ++ p ++ "...".

(** The successful staging commands of additional paths. *)
Definition is_batch_staging (s : string * bool) : bool :=
  snd s && mem (fst s) (map stage_cmd dirs_to_add).

Definition batch_stagings (t : trace) : nat :=
  length (filter is_batch_staging (steps t)).

(** A host where only [package.json] is on disk and the remote refuses the
    forced push. *)
Definition lonely : Sim.disk :=
  Sim.mkDisk ["package.json"] [force_push_cmd] [] false.

(** What the loops print: diagnostics of [run_cmd], and the announcements
    of the cycles of the paths in [l]. *)
Definition chatter (l : list string) (e : event) : Prop :=
  match e with
  | EvPrint s => is_diagnostic s = true \/ exists q, In q l /\ s = adding_line q
  | _ => True
  end.

(** What a completed run prints, [pushed] being the verdict of the forced
    push. *)
Definition known_event (pushed : bool) (e : event) : Prop :=
  match e with
  | EvPrint s =>
      In s (lines (push_report pushed)) \/ In s fixed_lines \/
      chatter dirs_to_add (EvPrint s)
  | _ => True
  end.

(** Events that announce no cycle. *)
Definition plain (e : event) : Prop :=
  match e with
  | EvPrint s => forall p, s <> adding_line p
  | _ => True
  end.

(** ** The host at the checks of the essential files *)

(** The host as the cleanup leaves it. *)
Definition after_cleanup (os : Host) (w : World os) : World os :=
  if path_exists os w ".git" then fst (remove_tree os w ".git") else w.

(** The host after a series of commands. *)
Definition after_commands (os : Host) (cmds : list string) (w : World os) :
  World os :=
  fold_left (fun w' cmd => fst (spawn os w' cmd)) cmds w.

(** The host when the loop over the essential files [l], started on [w],
    checks [f]: each file found before [f] has been staged on the way. *)
Fixpoint at_check (os : Host) (l : list string) (w : World os) (f : string) :
  World os :=
  match l with
  | [] => w
  | g :: l' =>
      if String.eqb f g then w
      else at_check os l'
             (if path_exists os w g then fst (spawn os w (stage_cmd g)) else w)
             f
  end.

(** The host when [main], started on [w], checks the essential file [f]:
    after the cleanup, [git init], the configuration, the remote, and the
    staging of the essential files before [f]. *)
Definition check_world (os : Host) (w : World os) (f : string) : World os :=
  at_check os essential_files
    (after_commands os (init_cmd :: setup_cmds) (after_cleanup os w)) f.

(** [t] contains the events [x], after events that check no path but
    [.git]. *)
Definition leads_to (x t : trace) : Prop :=
  exists prefix rest,
    t = (prefix ++ x ++ rest)%list /\
    forall f, f <> ".git" -> checks f prefix = [].

(** ** Consoles that fail *)

(** Whether every character of a text is ASCII. *)
Definition ascii_only (text : string) : bool :=
  forallb (fun c => Nat.ltb (nat_of_ascii c) 128) (list_ascii_of_string text).

(** The simulated host on a terminal whose encoding is ASCII: printing any
    other character raises [UnicodeEncodeError]. *)
Definition ascii_terminal : Machine :=
  mkMachine Sim.host
    (mkConsole Sim.disk
       (fun d text =>
          if ascii_only text then (d, None)
          else (d, Some (Exception "'ascii' codec can't encode character")))
       (fun _ => None)).

(** The simulated host with its output sent to a full device: the texts are
    buffered, and the flush at the end fails. *)
Definition full_device : Machine :=
  mkMachine Sim.host
    (mkConsole Sim.disk
       (fun d _ => (d, None))
       (fun _ => Some (Exception "[Errno 28] No space left on device"))).

(** The reading of the exit behaviour in which nothing depends on the
    console: [main] returns normally and the process ends with status 0. *)
Definition exits_with_zero (pc : Machine) (w : World (host pc)) : Prop :=
  outcome (main pc) w = inr tt /\ snd (script pc w) = 0%Z.

(** A computation that raises on no host state. *)
Definition never_raises {os : Host} {A : Type} (m : M os A) : Prop :=
  forall w, exists a, outcome m w = inr a.

(** ** Laws of the effect monad *)

Section MonadLaws.

Variable os : Host.

Lemma events_bind {A B : Type} (m : M os A) (k : A -> M os B) (w : World os) :
  events (bind m k) w =
  (events m w ++
   match outcome m w with
   | inr a => events (k a) (final_world m w)
   | inl _ => []
   end)%list.
Proof.
  unfold events, outcome, final_world, bind.
  destruct (m w) as [[w1 t1] [e | a]]; simpl.
  - now rewrite app_nil_r.
  - now destruct (k a w1) as [[w2 t2] r].
Qed.

Lemma outcome_bind {A B : Type} (m : M os A) (k : A -> M os B) (w : World os) :
  outcome (bind m k) w =
  match outcome m w with
  | inr a => outcome (k a) (final_world m w)
  | inl e => inl e
  end.
Proof.
  unfold outcome, final_world, bind.
  destruct (m w) as [[w1 t1] [e | a]]; simpl; trivial.
  now destruct (k a w1) as [[w2 t2] r].
Qed.

(** [run_cmd], computed: it spawns once, complains if need be, and returns
    the verdict; it never raises. *)
Lemma run_cmd_eq (cmd : string) (w : World os) :
  run_cmd os cmd w =
  (fst (spawn os w cmd),
   ran cmd (snd (spawn os w cmd)),
   inr (succeeded (snd (spawn os w cmd)))).
Proof.
  unfold run_cmd, try_except, bind, subprocess_run, when, print, ret, ran.
  cbn [host console reliable steady write].
  destruct (spawn os w cmd) as [w1 [e | p]]; simpl; trivial.
  destruct (returncode p =? 0)%Z; reflexivity.
Qed.

End MonadLaws.

(** ** The trace of [main] *)

(** Symbolic execution: unfold the monad, then compute through each call of
    [run_cmd] with its equation. *)
Ltac expose :=
  cbv beta iota delta [bind outcome events final_world os_path_exists when
                       print ret];
  cbn [host console reliable steady write];
  cbv beta iota.
Ltac run := repeat (rewrite run_cmd_eq; cbv beta iota).

Section Shape.

Variable os : Host.

(** Conclude with the induction hypothesis for the rest of the loop. *)
Ltac finish IH rest w' :=
  destruct (IH w') as ([] & Ho & Hs);
  unfold outcome, events in Ho, Hs;
  destruct (rest w') as [[wz tz] rz]; cbn [fst snd] in Ho, Hs; subst rz;
  cbn [fst snd]; split; [reflexivity |];
  rewrite ?app_nil_r, <- ?app_assoc; cbn [app].

Lemma essentials_loop (l : list string) :
  emits (for_each (os := os) l (fun file =>
           found <- os_path_exists os file ;;
           when found (run_cmd os (stage_cmd file) ;; ret tt)))
        (fun _ t => staged l t).
Proof.
  induction l as [| f l IH]; intros w.
  - exists tt. split; [reflexivity | constructor].
  - exists tt. unfold emits in IH. cbn [for_each].
    set (rest := for_each l _) in *. expose.
    destruct (path_exists os w f); run.
    + finish IH rest (fst (spawn os w (stage_cmd f))).
      now apply staged_present.
    + finish IH rest w. now apply staged_absent.
Qed.

Lemma batches_loop (l : list string) :
  emits (for_each (os := os) l (fun dir_path =>
           found <- os_path_exists os dir_path ;;
           when found
             (print os ("Adding " ++ dir_path ++ "...") ;;
              staged <- run_cmd os (stage_cmd dir_path) ;;
              when staged
                (run_cmd os (commit_cmd dir_path) ;;
                 run_cmd os push_cmd ;;
                 ret tt))))
        (fun _ t => batched l t).
Proof.
  induction l as [| p l IH]; intros w.
  - exists tt. split; [reflexivity | constructor].
  - exists tt. unfold emits in IH. cbn [for_each].
    set (rest := for_each l _) in *. expose.
    destruct (path_exists os w p); run.
    + set (w1 := fst (spawn os w (stage_cmd p))).
      destruct (succeeded (snd (spawn os w (stage_cmd p)))) eqn:Hr; run.
      * set (w2 := fst (spawn os w1 (commit_cmd p))).
        finish IH rest (fst (spawn os w2 push_cmd)).
        now apply batched_pushed.
      * finish IH rest w1. now apply batched_refused.
    + finish IH rest w. now apply batched_absent.
Qed.

(** Replace a loop by a name, keeping only the description of its traces. *)
Ltac name_loop l rest H lemma :=
  match goal with
  | |- context [for_each l ?body] =>
      set (rest := for_each l body);
      assert (H := lemma l : emits rest _);
      unfold emits in H; clearbody rest
  end.

(** Run a named loop where it stands in the goal. *)
Ltac run_loop rest H :=
  match goal with
  | |- context [rest ?w'] =>
      let Ho := fresh "Ho" in
      let Hs := fresh "Hs" in
      destruct (H w') as ([] & Ho & Hs);
      unfold outcome, events in Ho, Hs;
      destruct (rest w') as [[? ?] ?]; cbn [fst snd] in Ho, Hs; subst;
      cbv beta iota
  end.

Lemma deployed_reported r1 r2 r3 r4 te rc rf tb report :
  staged essential_files te ->
  batched dirs_to_add tb ->
  report = push_report (succeeded rf) ->
  deployed
    (ran "git config core.autocrlf false" r1 ++
     ran "git config core.filemode false" r2 ++
     ran "git config core.compression 0" r3 ++
     EvPrint "🔗 Adding GitHub remote..." ::
     ran "git remote add origin https://github.com/ehudso7/nexus-studio.git" r4 ++
     EvPrint "📝 Adding essential files..." ::
     te ++
     EvPrint "💾 Creating initial commit..." ::
     ran initial_commit_cmd rc ++
     EvPrint "⬆️  Pushing to GitHub..." ::
     ran force_push_cmd rf ++
     report ++
     EvPrint (LF ++ "📦 Adding additional files in batches...") ::
     tb ++
     closing)%list.
Proof. intros Hs Hb ->. now constructor. Qed.

Lemma main_trace_fresh r t' :
  (if succeeded r then deployed t' else t' = []) ->
  main_trace
    (EvPrint "🚀 Deploying NexStudio to GitHub..." ::
     EvPrint "🧹 Cleaning up old git repository..." ::
     EvExists ".git" false ::
     EvPrint "📁 Initializing new git repository..." ::
     ran init_cmd r ++ t')%list.
Proof.
  destruct (succeeded r) eqn:Hr; intros H.
  - apply (main_completed (_ :: _ :: _ :: _ :: ran init_cmd r) t'); trivial.
    pose proof (opened_fresh r) as Ho. now rewrite Hr in Ho.
  - subst t'. rewrite app_nil_r. apply main_aborted.
    pose proof (opened_fresh r) as Ho. now rewrite Hr in Ho.
Qed.

Lemma main_trace_cleaned e r t' :
  (if succeeded r then deployed t' else t' = []) ->
  main_trace
    (EvPrint "🚀 Deploying NexStudio to GitHub..." ::
     EvPrint "🧹 Cleaning up old git repository..." ::
     EvExists ".git" true ::
     EvRmtree ".git" e ::
     EvPrint "📁 Initializing new git repository..." ::
     ran init_cmd r ++ t')%list.
Proof.
  destruct (succeeded r) eqn:Hr; intros H.
  - apply (main_completed (_ :: _ :: _ :: _ :: _ :: ran init_cmd r) t'); trivial.
    pose proof (opened_cleaned e r) as Ho. now rewrite Hr in Ho.
  - subst t'. rewrite app_nil_r. apply main_aborted.
    pose proof (opened_cleaned e r) as Ho. now rewrite Hr in Ho.
Qed.

Lemma main_shape (w : World os) :
  outcome (main os) w = inr tt /\ main_trace (events (main os) w).
Proof.
  unfold main.
  name_loop essential_files ess He essentials_loop.
  name_loop dirs_to_add bat Hb batches_loop.
  expose. unfold shutil_rmtree.
  destruct (path_exists os w ".git");
    [destruct (remove_tree os w ".git") as [w0 [e |]] |];
    run;
    (match goal with
     | |- context [negb (succeeded ?r)] => destruct (succeeded r) eqn:Hinit
     end);
    cbn [negb]; run.
  all: try (run_loop ess He; run;
            match goal with
            | |- context [if succeeded ?r then _ else _] =>
                destruct (succeeded r) eqn:Hpush
            end; run; run_loop bat Hb).
  all: cbn [fst snd]; split; [reflexivity |].
  all: rewrite <- ?app_assoc; cbn [app].
  all: first [apply main_trace_cleaned | apply main_trace_fresh];
    rewrite Hinit; trivial.
  all: first [ apply deployed_reported with (report := push_report true)
             | apply deployed_reported with (report := push_report false) ];
    trivial; now rewrite Hpush.
Qed.

End Shape.

(** ** Reading traces piecewise *)

Local Open Scope list_scope.

Arguments stage_cmd : simpl never.
Arguments commit_cmd : simpl never.
Arguments ran : simpl never.

Lemma mem_In (s : string) (l : list string) : mem s l = true <-> In s l.
Proof.
  unfold mem. rewrite existsb_exists. split.
  - intros (x & Hx & E). apply String.eqb_eq in E. now subst.
  - intros H. exists s. split; [exact H | apply String.eqb_refl].
Qed.

Lemma mem_false (s : string) (l : list string) : mem s l = false -> ~ In s l.
Proof. intros E H. apply mem_In in H. congruence. Qed.

Lemma steps_app (a b : trace) : steps (a ++ b) = (steps a ++ steps b)%list.
Proof.
  induction a as [| e a IH]; [reflexivity |].
  destruct e; simpl; now rewrite ?IH.
Qed.

Lemma steps_complaint (r : exn + CompletedProcess) : steps (complaint r) = [].
Proof.
  destruct r as [e | p]; simpl; [reflexivity |].
  now destruct (returncode p =? 0)%Z.
Qed.

Lemma steps_ran (cmd : string) (r : exn + CompletedProcess) :
  steps (ran cmd r) = [(cmd, succeeded r)].
Proof. unfold ran. simpl. now rewrite steps_complaint. Qed.

Lemma steps_print (line : string) (t : trace) :
  steps (EvPrint line :: t) = steps t.
Proof. reflexivity. Qed.

Lemma steps_check (p : string) (b : bool) (t : trace) :
  steps (EvExists p b :: t) = steps t.
Proof. reflexivity. Qed.

Lemma steps_closing : steps closing = [].
Proof. reflexivity. Qed.

Lemma steps_push_report (b : bool) : steps (push_report b) = [].
Proof. now destruct b. Qed.

Lemma commands_app (a b : trace) :
  commands (a ++ b) = (commands a ++ commands b)%list.
Proof. unfold commands. now rewrite steps_app, map_app. Qed.

Lemma quiet_complaint (r : exn + CompletedProcess) : quiet (complaint r).
Proof.
  destruct r as [e | p]; simpl.
  - repeat constructor.
  - destruct (returncode p =? 0)%Z; repeat constructor.
Qed.

Lemma quiet_ran (cmd : string) (r : exn + CompletedProcess) : quiet (ran cmd r).
Proof. constructor; [reflexivity | apply quiet_complaint]. Qed.

Lemma quiet_closing : quiet closing.
Proof. repeat constructor. Qed.

Lemma quiet_push_report (b : bool) : quiet (push_report b).
Proof. destruct b; repeat constructor. Qed.

Lemma checks_app (p : string) (a b : trace) :
  checks p (a ++ b) = (checks p a ++ checks p b)%list.
Proof.
  induction a as [| e a IH]; [reflexivity |].
  destruct e; simpl; trivial.
  destruct (String.eqb p path); simpl; now rewrite IH.
Qed.

Lemma checks_quiet (p : string) (a : trace) : quiet a -> checks p a = [].
Proof.
  induction 1 as [| e a He _ IH]; [reflexivity |].
  destruct e; simpl in *; trivial. discriminate.
Qed.

Lemma until_next_check_quiet (a b : trace) :
  quiet a -> until_next_check (a ++ b) = (a ++ until_next_check b)%list.
Proof.
  induction 1 as [| e a He _ IH]; [reflexivity |].
  destruct e; simpl in *; try now rewrite IH. discriminate.
Qed.

Lemma cycle_skip (p : string) (a b : trace) :
  checks p a = [] -> cycle p (a ++ b) = cycle p b.
Proof.
  induction a as [| e a IH]; [reflexivity |].
  destruct e; simpl; trivial.
  destruct (String.eqb p path); [discriminate | exact IH].
Qed.

Lemma found_quiet (a b : trace) :
  quiet a -> filter essential_found (a ++ b) = filter essential_found b.
Proof.
  induction 1 as [| e a He _ IH]; [reflexivity |].
  destruct e; simpl in *; trivial. discriminate.
Qed.

(** The text after a fixed prefix determines a string. *)
Lemma append_inj (s x y : string) : (s ++ x = s ++ y)%string -> x = y.
Proof.
  induction s as [| c s IH]; simpl; intros H; [exact H |].
  injection H as H. auto.
Qed.

Lemma stage_cmd_inj (x y : string) : stage_cmd x = stage_cmd y -> x = y.
Proof. apply append_inj. Qed.

(** *** The loop over the essential files *)

Lemma staged_commands (l : list string) (t : trace) :
  staged l t -> incl (commands t) (map stage_cmd l).
Proof.
  unfold commands.
  induction 1 as [| f l t _ IH | f l t r _ IH].
  - intros c [].
  - rewrite steps_check. now apply incl_tl.
  - rewrite steps_check, steps_app, steps_ran. simpl.
    intros c [<- | Hc]; [now left | right; now apply IH].
Qed.

Lemma staged_checks (l : list string) (t : trace) (p : string) :
  staged l t -> ~ In p l -> checks p t = [].
Proof.
  induction 1 as [| f l t _ IH | f l t r _ IH]; cbn [checks]; intros Hp; trivial.
  - destruct (String.eqb_spec p f) as [-> | _].
    + exfalso. apply Hp. now left.
    + apply IH. intros H. apply Hp. now right.
  - destruct (String.eqb_spec p f) as [-> | _].
    + exfalso. apply Hp. now left.
    + rewrite checks_app, (checks_quiet _ _ (quiet_ran _ r)).
      apply IH. intros H. apply Hp. now right.
Qed.

Lemma staged_once (l : list string) (t : trace) (f : string) :
  staged l t -> NoDup l -> In f l ->
  exists b, checks f t = [b] /\
            count_cmd (stage_cmd f) t = if b then 1 else 0.
Proof.
  unfold count_cmd.
  induction 1 as [| g l t Ht IH | g l t r Ht IH]; intros Hnd Hin.
  - destruct Hin.
  - inversion Hnd as [| ? ? Hg Hl]; subst. cbn [checks].
    unfold commands. rewrite steps_check. fold (commands t).
    destruct (String.eqb_spec f g) as [-> | Hfg].
    + exists false. rewrite (staged_checks _ _ _ Ht Hg). split; trivial.
      apply count_occ_not_In. intros Hc.
      apply (staged_commands _ _ Ht), in_map_iff in Hc.
      destruct Hc as (x & E & Hx). apply stage_cmd_inj in E. now subst.
    + destruct Hin as [-> | Hin]; [congruence | now apply IH].
  - inversion Hnd as [| ? ? Hg Hl]; subst. cbn [checks].
    rewrite checks_app, (checks_quiet _ _ (quiet_ran _ r)).
    unfold commands. rewrite steps_check, steps_app, steps_ran.
    change (map fst ([(stage_cmd g, succeeded r)] ++ steps t))
      with (stage_cmd g :: commands t).
    destruct (String.eqb_spec f g) as [-> | Hfg].
    + exists true. rewrite (staged_checks _ _ _ Ht Hg). split; trivial.
      rewrite count_occ_cons_eq by reflexivity.
      f_equal. apply count_occ_not_In. intros Hc.
      apply (staged_commands _ _ Ht), in_map_iff in Hc.
      destruct Hc as (x & E & Hx). apply stage_cmd_inj in E. now subst.
    + rewrite count_occ_cons_neq
        by (intros E; apply stage_cmd_inj in E; congruence).
      destruct Hin as [-> | Hin]; [congruence | now apply IH].
Qed.

Lemma staged_tally (l : list string) (t : trace) :
  staged l t -> incl l essential_files ->
  length (filter is_essential_stage (commands t)) =
  length (filter essential_found t).
Proof.
  unfold commands.
  induction 1 as [| f l t _ IH | f l t r _ IH]; intros Hl; trivial.
  - rewrite steps_check. simpl. apply IH. intros x Hx. apply Hl. now right.
  - rewrite steps_check, steps_app, steps_ran.
    assert (Hf : In f essential_files) by (apply Hl; now left).
    assert (Hs : is_essential_stage (stage_cmd f) = true)
      by (apply mem_In, in_map, Hf).
    apply mem_In in Hf.
    change (map fst ([(stage_cmd f, succeeded r)] ++ steps t))
      with (stage_cmd f :: map fst (steps t)).
    cbn [filter essential_found]. rewrite Hs, Hf.
    rewrite (found_quiet _ _ (quiet_ran _ r)). cbn [length].
    f_equal. apply IH. intros x Hx. apply Hl. now right.
Qed.

(** *** The loop over the additional paths *)

Lemma batch_cmds_grow (p : string) (l : list string) (c : string) :
  In c (push_cmd :: map stage_cmd l ++ map commit_cmd l) ->
  In c (push_cmd :: map stage_cmd (p :: l) ++ map commit_cmd (p :: l)).
Proof. simpl. rewrite !in_app_iff. simpl. tauto. Qed.

Lemma batch_cmds_stage (p : string) (l : list string) :
  In (stage_cmd p) (push_cmd :: map stage_cmd (p :: l) ++ map commit_cmd (p :: l)).
Proof. simpl. tauto. Qed.

Lemma batch_cmds_commit (p : string) (l : list string) :
  In (commit_cmd p) (push_cmd :: map stage_cmd (p :: l) ++ map commit_cmd (p :: l)).
Proof. simpl. rewrite !in_app_iff. simpl. tauto. Qed.

Lemma batched_commands (l : list string) (t : trace) :
  batched l t ->
  incl (commands t) (push_cmd :: map stage_cmd l ++ map commit_cmd l).
Proof.
  unfold commands.
  induction 1 as [| p l t _ IH | p l t r _ _ IH | p l t r rc rp _ _ IH].
  - intros c [].
  - rewrite steps_check. intros c Hc. apply batch_cmds_grow, IH, Hc.
  - rewrite steps_check, steps_print, steps_app, steps_ran.
    intros c [<- | Hc].
    + apply batch_cmds_stage.
    + apply batch_cmds_grow, IH, Hc.
  - rewrite steps_check, steps_print, !steps_app, !steps_ran.
    intros c [<- | [<- | [<- | Hc]]].
    + apply batch_cmds_stage.
    + apply batch_cmds_commit.
    + now left.
    + apply batch_cmds_grow, IH, Hc.
Qed.

Lemma batched_checks (l : list string) (t : trace) (q : string) :
  batched l t -> ~ In q l -> checks q t = [].
Proof.
  induction 1 as [| p l t _ IH | p l t r _ _ IH | p l t r rc rp _ _ IH];
    cbn [checks]; intros Hq; trivial;
    (destruct (String.eqb_spec q p) as [-> | _];
     [exfalso; apply Hq; now left |]);
    rewrite ?checks_app, ?(checks_quiet _ _ (quiet_ran _ _));
    apply IH; intros H; apply Hq; now right.
Qed.

Lemma batched_found (l : list string) (t : trace) :
  batched l t ->
  (forall p, In p l -> mem p essential_files = false) ->
  filter essential_found t = [].
Proof.
  induction 1 as [| p l t _ IH | p l t r _ _ IH | p l t r rc rp _ _ IH];
    intros Hl; trivial; cbn [filter essential_found];
    rewrite ?(Hl p (or_introl eq_refl));
    rewrite ?(found_quiet _ _ (quiet_ran _ _));
    apply IH; intros x Hx; apply Hl; now right.
Qed.

(** After the last command of a cycle nothing is run before the next
    existence check, or before the end of the trace. *)
Lemma batched_next (l : list string) (t tail : trace) :
  batched l t -> quiet tail -> steps tail = [] ->
  steps (until_next_check (t ++ tail)) = [].
Proof.
  intros [| p l' t' _ | p l' t' r _ _ | p l' t' r rc rp _ _] Hq Hs; trivial.
  cbn [app]. rewrite <- (app_nil_r tail), until_next_check_quiet by exact Hq.
  now rewrite app_nil_r.
Qed.

Lemma batched_cycle (l : list string) (t tail : trace) (q : string) :
  batched l t -> quiet tail -> steps tail = [] -> In q l ->
  exists b seg, cycle q (t ++ tail) = Some (b, seg) /\
                cycle_steps q b (steps seg).
Proof.
  intros Hb Hq Hs.
  induction Hb as [| p l t Ht IH | p l t r Hr Ht IH | p l t r rc rp Hr Ht IH];
    intros Hin.
  - destruct Hin.
  - cbn [app cycle]. destruct (String.eqb_spec q p) as [-> | Hqp].
    + exists false, (until_next_check (t ++ tail)). split; trivial.
      rewrite (batched_next _ _ _ Ht Hq Hs). constructor.
    + apply IH. destruct Hin; [congruence | assumption].
  - cbn [app cycle]. rewrite <- app_assoc.
    destruct (String.eqb_spec q p) as [-> | Hqp].
    + eexists true, _. split; [reflexivity |].
      cbn [until_next_check].
      rewrite until_next_check_quiet by apply quiet_ran.
      rewrite steps_print, steps_app, steps_ran, Hr.
      rewrite (batched_next _ _ _ Ht Hq Hs). constructor.
    + rewrite cycle_skip by apply checks_quiet, quiet_ran.
      apply IH. destruct Hin; [congruence | assumption].
  - cbn [app cycle]. rewrite <- !app_assoc.
    destruct (String.eqb_spec q p) as [-> | Hqp].
    + eexists true, _. split; [reflexivity |].
      cbn [until_next_check].
      rewrite !until_next_check_quiet by apply quiet_ran.
      rewrite steps_print, !steps_app, !steps_ran, Hr.
      rewrite (batched_next _ _ _ Ht Hq Hs). constructor.
    + rewrite !cycle_skip by apply checks_quiet, quiet_ran.
      apply IH. destruct Hin; [congruence | assumption].
Qed.

(** *** The whole run *)

Lemma opened_steps (b : bool) (t : trace) :
  opened b t -> steps t = [(init_cmd, b)].
Proof.
  intros [r | e r]; cbn [steps]; apply steps_ran.
Qed.

Lemma opened_verdict (b : bool) (t t' : trace) :
  opened b t -> verdict init_cmd (t ++ t') = Some b.
Proof. now intros [r | e r]. Qed.

Lemma opened_quiet_for (b : bool) (t : trace) (p : string) :
  opened b t -> p <> ".git"%string -> checks p t = [].
Proof.
  intros [r | e r] Hp; cbn [checks];
    (destruct (String.eqb_spec p ".git"); [contradiction |]);
    apply checks_quiet, quiet_ran.
Qed.

Lemma opened_found (b : bool) (t t' : trace) :
  opened b t ->
  filter essential_found (t ++ t') = filter essential_found t'.
Proof.
  intros [r | e r]; cbn [app filter essential_found];
    change (mem ".git" essential_files) with false; cbn iota;
    apply found_quiet, quiet_ran.
Qed.

(** The events after a successful [git init], in five parts: the setup,
    the loop over the essential files, the first commit and the forced
    push, the loop over the additional paths, the last prints. *)
Lemma deployed_parts (t : trace) :
  deployed t ->
  exists pre te mid tb,
    t = pre ++ te ++ mid ++ tb ++ closing /\
    staged essential_files te /\ batched dirs_to_add tb /\
    quiet pre /\ quiet mid /\
    commands pre = setup_cmds /\
    commands mid = [initial_commit_cmd; force_push_cmd].
Proof.
  intros [r1 r2 r3 r4 te rc rf tb Hs Hb].
  exists (ran "git config core.autocrlf false" r1 ++
          ran "git config core.filemode false" r2 ++
          ran "git config core.compression 0" r3 ++
          EvPrint "🔗 Adding GitHub remote..." ::
          ran "git remote add origin https://github.com/ehudso7/nexus-studio.git" r4 ++
          [EvPrint "📝 Adding essential files..."]),
         te,
         (EvPrint "💾 Creating initial commit..." ::
          ran initial_commit_cmd rc ++
          EvPrint "⬆️  Pushing to GitHub..." ::
          ran force_push_cmd rf ++
          push_report (succeeded rf) ++
          [EvPrint (LF ++ "📦 Adding additional files in batches...")%string]),
         tb.
  split; [| split; [exact Hs | split; [exact Hb | split; [| split; [| split]]]]].
  - repeat (rewrite <- ?app_assoc, <- ?app_comm_cons). reflexivity.
  - repeat first [ apply quiet_ran | apply Forall_nil
                 | apply Forall_app; split | apply Forall_cons; [reflexivity |] ].
  - repeat first [ apply quiet_ran | apply quiet_push_report | apply Forall_nil
                 | apply Forall_app; split | apply Forall_cons; [reflexivity |] ].
  - unfold commands.
    now rewrite !steps_app, !steps_ran, steps_print, steps_app, steps_ran.
  - unfold commands.
    now rewrite steps_print, steps_app, steps_ran, steps_print, !steps_app,
      steps_ran, steps_push_report.
Qed.

Lemma main_aborts (t : trace) :
  main_trace t -> verdict init_cmd t = Some false -> opened false t.
Proof.
  intros [t0 Ho | t0 t' Ho Hd] Hv; [exact Ho |].
  rewrite (opened_verdict _ _ _ Ho) in Hv. discriminate.
Qed.

Lemma main_completes (t : trace) :
  main_trace t -> verdict init_cmd t = Some true ->
  exists t0 t', t = t0 ++ t' /\ opened true t0 /\ deployed t'.
Proof.
  intros [t0 Ho | t0 t' Ho Hd] Hv; [| now exists t0, t'].
  rewrite <- (app_nil_r t0), (opened_verdict _ _ _ Ho) in Hv. discriminate.
Qed.

Lemma additional_not_essential (p : string) :
  In p dirs_to_add -> ~ In p essential_files /\ p <> ".git"%string.
Proof.
  intros Hp. split.
  - intros He. simpl in Hp, He.
    repeat (destruct Hp as [<- | Hp]; [intuition discriminate |]).
    exact Hp.
  - intros ->. simpl in Hp. intuition discriminate.
Qed.

Lemma essential_not_additional (f : string) :
  In f essential_files -> ~ In f dirs_to_add /\ f <> ".git"%string.
Proof.
  intros Hf. split.
  - intros Hd. exact (proj1 (additional_not_essential f Hd) Hf).
  - intros ->. simpl in Hf. intuition discriminate.
Qed.

(** A completed run, read through each of the projections. *)
Lemma main_view (t : trace) :
  main_trace t -> verdict init_cmd t = Some true ->
  exists te tb,
    staged essential_files te /\ batched dirs_to_add tb /\
    commands t =
      init_cmd :: setup_cmds ++ commands te ++
      initial_commit_cmd :: force_push_cmd :: commands tb /\
    (forall p, p <> ".git"%string -> checks p t = checks p te ++ checks p tb) /\
    filter essential_found t = filter essential_found te /\
    (exists body, t = body ++ closing).
Proof.
  intros Hm Hv.
  destruct (main_completes t Hm Hv) as (t0 & t' & -> & Ho & Hd).
  destruct (deployed_parts t' Hd)
    as (pre & te & mid & tb & -> & Hs & Hb & Qpre & Qmid & Cpre & Cmid).
  exists te, tb. repeat (split; [assumption |]).
  split; [| split; [| split]].
  - unfold commands in *. rewrite !steps_app, !map_app, Cpre, Cmid.
    rewrite (opened_steps _ _ Ho), steps_closing. cbn [map fst app].
    now rewrite app_nil_r.
  - intros p Hp. rewrite !checks_app.
    rewrite (opened_quiet_for _ _ _ Ho Hp).
    rewrite (checks_quiet _ _ Qpre), (checks_quiet _ _ Qmid).
    change (checks p closing) with (@nil bool). cbn [app].
    now rewrite app_nil_r.
  - rewrite (opened_found _ _ _ Ho), (found_quiet _ _ Qpre).
    rewrite filter_app, (found_quiet _ _ Qmid), filter_app.
    rewrite (batched_found _ _ Hb).
    + apply app_nil_r.
    + intros p Hp. destruct (mem p essential_files) eqn:E; trivial.
      apply mem_In in E. now apply additional_not_essential in Hp.
  - exists (t0 ++ pre ++ te ++ mid ++ tb). now rewrite <- !app_assoc.
Qed.

(** The cycle of an additional path, wherever [main] ran it. *)
Lemma main_cycle (t : trace) (p : string) :
  main_trace t -> In p dirs_to_add ->
  (verdict init_cmd t = Some true -> cycle p t <> None) /\
  (forall b seg, cycle p t = Some (b, seg) -> cycle_steps p b (steps seg)).
Proof.
  intros Hm Hp. destruct (additional_not_essential p Hp) as [Hpe Hpg].
  destruct Hm as [t0 Ho | t0 t' Ho Hd].
  - split.
    + intros Hv. rewrite <- (app_nil_r t0), (opened_verdict _ _ _ Ho) in Hv.
      discriminate.
    + intros b seg. rewrite <- (app_nil_r t0).
      rewrite cycle_skip by exact (opened_quiet_for _ _ _ Ho Hpg).
      discriminate.
  - destruct (deployed_parts t' Hd)
      as (pre & te & mid & tb & -> & Hs & Hb & Qpre & Qmid & _ & _).
    rewrite cycle_skip by exact (opened_quiet_for _ _ _ Ho Hpg).
    rewrite cycle_skip by exact (checks_quiet _ _ Qpre).
    rewrite cycle_skip by exact (staged_checks _ _ _ Hs Hpe).
    rewrite cycle_skip by exact (checks_quiet _ _ Qmid).
    destruct (batched_cycle _ _ closing p Hb quiet_closing steps_closing Hp)
      as (b0 & seg0 & -> & Hc).
    split; [discriminate |].
    intros b seg E. injection E as <- <-. exact Hc.
Qed.

(** When no essential file is found, the first loop runs no command. *)
Lemma staged_none (l : list string) (t : trace) :
  staged l t ->
  (forall f, In f l -> ~ In true (checks f t)) ->
  commands t = [].
Proof.
  unfold commands.
  induction 1 as [| f l t _ IH | f l t r _ IH]; intros Hl; trivial.
  - rewrite steps_check. apply IH. intros g Hg Hc.
    apply (Hl g (or_intror Hg)). cbn [checks].
    destruct (String.eqb g f); [now right | exact Hc].
  - exfalso. apply (Hl f (or_introl eq_refl)). cbn [checks].
    rewrite String.eqb_refl. now left.
Qed.

(** Commands that are none of the commands of a loop. *)
Lemma not_staged (l : list string) (t : trace) (c : string) :
  staged l t -> mem c (map stage_cmd l) = false -> count_cmd c t = 0.
Proof.
  intros Hs Hc. apply count_occ_not_In. intros H.
  apply (staged_commands _ _ Hs) in H. now apply mem_false in Hc.
Qed.

Lemma not_batched (l : list string) (t : trace) (c : string) :
  batched l t ->
  mem c (push_cmd :: map stage_cmd l ++ map commit_cmd l) = false ->
  count_cmd c t = 0.
Proof.
  intros Hb Hc. apply count_occ_not_In. intros H.
  apply (batched_commands _ _ Hb) in H. now apply mem_false in Hc.
Qed.

(** The first commit and the forced push occur once each in a completed run. *)
Lemma main_pushes_once (t : trace) :
  main_trace t -> verdict init_cmd t = Some true ->
  count_cmd force_push_cmd t = 1 /\ count_cmd initial_commit_cmd t = 1.
Proof.
  intros Hm Hv.
  destruct (main_view t Hm Hv) as (te & tb & Hs & Hb & Hc & _).
  assert (Hte : forall c, mem c (map stage_cmd essential_files) = false ->
                          count_occ string_dec (commands te) c = 0)
    by (intros c; apply (not_staged _ _ _ Hs)).
  assert (Htb : forall c,
             mem c (push_cmd :: map stage_cmd dirs_to_add ++
                    map commit_cmd dirs_to_add) = false ->
             count_occ string_dec (commands tb) c = 0)
    by (intros c; apply (not_batched _ _ _ Hb)).
  unfold count_cmd. rewrite Hc.
  change (init_cmd :: setup_cmds ++ commands te ++
          initial_commit_cmd :: force_push_cmd :: commands tb)
    with ((init_cmd :: setup_cmds) ++ commands te ++
          [initial_commit_cmd; force_push_cmd] ++ commands tb).
  split; rewrite !count_occ_app, Hte, Htb by reflexivity; reflexivity.
Qed.

(** Nothing is deleted after the cleanup. *)
Lemma deletions_app (a b : trace) :
  deletions (a ++ b) = deletions a ++ deletions b.
Proof.
  induction a as [| e a IH]; [reflexivity |].
  destruct e; simpl; now rewrite ?IH.
Qed.

Lemma deletions_ran (cmd : string) (r : exn + CompletedProcess) :
  deletions (ran cmd r) = [].
Proof.
  unfold ran. destruct r as [e | p]; simpl; trivial.
  now destruct (returncode p =? 0)%Z.
Qed.

Lemma staged_deletions (l : list string) (t : trace) :
  staged l t -> deletions t = [].
Proof.
  induction 1 as [| f l t _ IH | f l t r _ IH]; cbn [deletions]; trivial.
  now rewrite deletions_app, deletions_ran.
Qed.

Lemma batched_deletions (l : list string) (t : trace) :
  batched l t -> deletions t = [].
Proof.
  induction 1 as [| p l t _ IH | p l t r _ _ IH | p l t r rc rp _ _ IH];
    cbn [deletions]; trivial;
    now rewrite !deletions_app, !deletions_ran.
Qed.

Lemma deployed_deletions (t : trace) : deployed t -> deletions t = [].
Proof.
  intros [r1 r2 r3 r4 te rc rf tb Hs Hb].
  repeat (rewrite ?deletions_app, ?deletions_ran; cbn [deletions app]).
  rewrite (staged_deletions _ _ Hs), (batched_deletions _ _ Hb).
  now destruct (succeeded rf).
Qed.

Lemma main_deletions (t : trace) :
  main_trace t ->
  exists found later,
    checks ".git" t = found :: later /\
    deletions t = if found then [".git"%string] else [].
Proof.
  assert (Ho : forall b t0 t', opened b t0 -> deletions t' = [] ->
            exists found later,
              checks ".git" (t0 ++ t') = found :: later /\
              deletions (t0 ++ t') = if found then [".git"%string] else []).
  { intros b t0 t' [r | e r] Ht';
      [exists false | exists true]; eexists;
      (split; [reflexivity |]);
      cbn [app deletions]; now rewrite deletions_app, deletions_ran, Ht'. }
  intros [t0 H | t0 t' H Hd].
  - rewrite <- (app_nil_r t0). now apply (Ho false).
  - apply (Ho true); [exact H | now apply deployed_deletions].
Qed.

Lemma essential_files_distinct : NoDup essential_files.
Proof.
  unfold essential_files.
  repeat (constructor; [simpl; intuition discriminate |]). constructor.
Qed.

Lemma filter_outside (f : string -> bool) (l allowed : list string) :
  incl l allowed -> forallb (fun c => negb (f c)) allowed = true ->
  filter f l = [].
Proof.
  intros Hl Ha. rewrite forallb_forall in Ha.
  induction l as [| c l IH]; [reflexivity |].
  cbn [filter]. assert (Hc : negb (f c) = true) by (apply Ha, Hl; now left).
  destruct (f c); [discriminate |].
  apply IH. intros x Hx. apply Hl. now right.
Qed.

(** ** Three runs on the simulated host *)

Example rough_run_steps :
  steps (events (main Sim.host) Scenario.rough) =
  [ (init_cmd, true);
    ("git config core.autocrlf false"%string, true);
    ("git config core.filemode false"%string, false);
    ("git config core.compression 0"%string, true);
    ("git remote add origin https://github.com/ehudso7/nexus-studio.git"%string,
     false);
    (stage_cmd "package.json", true);
    (initial_commit_cmd, true);
    (force_push_cmd, true);
    (stage_cmd "docs", false);
    (stage_cmd "nginx", true);
    (commit_cmd "nginx", true);
    (push_cmd, true) ].
Proof. reflexivity. Qed.

Example smooth_run_pushes :
  count_cmd push_cmd (events (main Sim.host) Scenario.smooth) = 5 /\
  count_cmd force_push_cmd (events (main Sim.host) Scenario.smooth) = 1 /\
  Datatypes.length (commands (events (main Sim.host) Scenario.smooth)) = 25.
Proof. repeat split. Qed.

Example failed_init_run :
  script Sim.host Scenario.no_init =
  (Sim.mkDisk (essential_files ++ dirs_to_add) [init_cmd] [] false,
   [ EvPrint "🚀 Deploying NexStudio to GitHub...";
     EvPrint "🧹 Cleaning up old git repository...";
     EvExists ".git" true;
     EvRmtree ".git" None;
     EvPrint "📁 Initializing new git repository...";
     EvSpawn init_cmd (inr (mkCompleted 1 "" "fatal"));
     EvPrint "Error: fatal" ],
   0%Z).
Proof. reflexivity. Qed.

(** ** Properties of the script *)

(** Where a theorem takes a host [os : Host], [main os] and [run_cmd os] are
    the script on the machine [reliable os]: that host with a console that
    takes every text.  The exit status is settled on arbitrary machines. *)

(** *** The command runner *)


(** *** The process boundary *)

Section NeverRaises.

Variable pc : Machine.

Hypothesis console_accepts :
  forall w text, snd (write (console pc) w text) = None.

Lemma never_raises_ret {A : Type} (a : A) :
  never_raises (ret (os := host pc) a).
Proof. intros w. now exists a. Qed.

Lemma never_raises_bind {A B : Type}
      (m : M (host pc) A) (k : A -> M (host pc) B) :
  never_raises m -> (forall a, never_raises (k a)) -> never_raises (bind m k).
Proof.
  intros Hm Hk w. destruct (Hm w) as [a Ha].
  destruct (Hk a (final_world m w)) as [b Hb].
  exists b. now rewrite outcome_bind, Ha.
Qed.

Lemma never_raises_when (b : bool) (m : M (host pc) unit) :
  never_raises m -> never_raises (when b m).
Proof. destruct b; [trivial | intros _; apply never_raises_ret]. Qed.

Lemma never_raises_for_each {A : Type} (l : list A)
      (body : A -> M (host pc) unit) :
  (forall x, never_raises (body x)) -> never_raises (for_each l body).
Proof.
  intros Hb. induction l as [| x l IH]; cbn [for_each].
  - apply never_raises_ret.
  - apply never_raises_bind; [apply Hb | intros _; exact IH].
Qed.

Lemma never_raises_print (line : string) : never_raises (print pc line).
Proof.
  intros w. exists tt. unfold outcome, print.
  specialize (console_accepts w line).
  destruct (write (console pc) w line) as [w1 o]. cbn [snd] in *.
  now subst o.
Qed.

Lemma never_raises_exists (path : string) :
  never_raises (os_path_exists (host pc) path).
Proof. intros w. now exists (path_exists (host pc) w path). Qed.

Lemma never_raises_rmtree (path : string) :
  never_raises (shutil_rmtree (host pc) path true).
Proof.
  intros w. exists tt. unfold outcome, shutil_rmtree.
  now destruct (remove_tree (host pc) w path) as [w1 [e |]].
Qed.

Lemma never_raises_try {A : Type}
      (body : M (host pc) A) (handler : exn -> M (host pc) A) :
  (forall e, never_raises (handler e)) -> never_raises (try_except body handler).
Proof.
  intros Hh w. unfold outcome, try_except.
  destruct (body w) as [[w1 t1] [e | a]]; [| now exists a].
  destruct (Hh e w1) as [b Hb]. unfold outcome in Hb.
  destruct (handler e w1) as [[w2 t2] r]. now exists b.
Qed.

Lemma never_raises_run_cmd (cmd : string) : never_raises (run_cmd pc cmd).
Proof.
  apply never_raises_try. intros e.
  apply never_raises_bind; [apply never_raises_print |].
  intros _. apply never_raises_ret.
Qed.

Lemma never_raises_main : never_raises (main pc).
Proof.
  unfold main.
  repeat first
    [ apply never_raises_ret
    | apply never_raises_print
    | apply never_raises_exists
    | apply never_raises_rmtree
    | apply never_raises_run_cmd
    | apply never_raises_when
    | apply never_raises_for_each; intros ?
    | apply never_raises_bind; [| intros ?]
    | match goal with
      | |- never_raises (if ?b then _ else _) => destruct b
      end ].
Qed.

End NeverRaises.

(** C6, as stated, fails: on a terminal that cannot encode the first text
    [main] prints, the exception of [print] leaves [main] and the process
    ends with status 1. *)
Lemma exit_status_depends_on_console :
  ~ exits_with_zero ascii_terminal Scenario.rough.
Proof. intros [H _]. vm_compute in H. discriminate H. Qed.

Example unprintable_run :
  script ascii_terminal Scenario.rough = (Scenario.rough, [], 1%Z).
Proof. reflexivity. Qed.

Example unflushed_run :
  snd (script full_device Scenario.no_init) = 120%Z.
Proof. reflexivity. Qed.

(** C6, amended. On a console that takes every text and whose last flush
    succeeds, [main] returns normally and the process ends with status 0,
    whatever the commands, the existence checks and the deletion do. *)
Theorem script_exits_with_zero (pc : Machine) (w : World (host pc)) :
  (forall w' text, snd (write (console pc) w' text) = None) ->
  (forall w', flush (console pc) w' = None) ->
  outcome (main pc) w = inr tt /\ snd (script pc w) = 0%Z.
Proof.
  intros Hwrite Hflush.
  destruct (never_raises_main pc Hwrite w) as [[] Ho].
  split; [exact Ho |].
  unfold script, outcome in *.
  destruct (main pc w) as [[w1 t] r]. cbn [snd] in Ho. subst r.
  now rewrite Hflush.
Qed.

Lemma script_exits_with_zero_witness :
  (forall w' text, snd (write (console (reliable Sim.host)) w' text) = None) /\
  (forall w', flush (console (reliable Sim.host)) w' = None) /\
  failures (events (main Sim.host) Scenario.rough) = 3 /\
  snd (script Sim.host Scenario.rough) = 0%Z.
Proof.
  assert (Hw : forall w' text,
            snd (write (console (reliable Sim.host)) w' text) = None)
    by reflexivity.
  assert (Hf : forall w', flush (console (reliable Sim.host)) w' = None)
    by reflexivity.
  split; [exact Hw | split; [exact Hf | split; [reflexivity |]]].
  exact (proj2 (script_exits_with_zero (reliable Sim.host) Scenario.rough
                  Hw Hf)).
Defined.

(** *** The cleanup *)

(** C8. The metadata directory is the only thing ever deleted, and it is
    deleted exactly when it is found; the deletion never raises, whatever
    error it met; and in each case the next command is [git init], run on
    the host as the deletion left it. *)
Theorem cleanup_never_aborts (os : Host) (w : World os) :
  outcome (shutil_rmtree os ".git" true) w = inr tt /\
  deletions (events (main os) w) =
    (if path_exists os w ".git" then [".git"%string] else []) /\
  exists rest,
    events (main os) w =
      EvPrint "🚀 Deploying NexStudio to GitHub..." ::
      EvPrint "🧹 Cleaning up old git repository..." ::
      EvExists ".git" (path_exists os w ".git") ::
      (if path_exists os w ".git"
       then [EvRmtree ".git" (snd (remove_tree os w ".git"))]
       else []) ++
      EvPrint "📁 Initializing new git repository..." ::
      EvSpawn init_cmd
        (snd (spawn os
                (if path_exists os w ".git"
                 then fst (remove_tree os w ".git")
                 else w)
                init_cmd)) ::
      rest.
Proof.
  assert (Hrun : exists rest,
    events (main os) w =
      EvPrint "🚀 Deploying NexStudio to GitHub..." ::
      EvPrint "🧹 Cleaning up old git repository..." ::
      EvExists ".git" (path_exists os w ".git") ::
      (if path_exists os w ".git"
       then [EvRmtree ".git" (snd (remove_tree os w ".git"))]
       else []) ++
      EvPrint "📁 Initializing new git repository..." ::
      EvSpawn init_cmd
        (snd (spawn os
                (if path_exists os w ".git"
                 then fst (remove_tree os w ".git")
                 else w)
                init_cmd)) ::
      rest); [| split; [| split; [| exact Hrun]]].
  - unfold main.
    match goal with
    | |- context [@bind _ _ _ (run_cmd _ "git init -b main") ?k] =>
        set (rest_of_main := k); clearbody rest_of_main
    end.
    expose. unfold shutil_rmtree.
    destruct (path_exists os w ".git");
      [destruct (remove_tree os w ".git") as [w0 [e |]] |];
      rewrite run_cmd_eq; cbv beta iota;
      match goal with
      | |- context [rest_of_main ?b ?w'] =>
          destruct (rest_of_main b w') as [[w2 t2] r2]
      end;
      cbn [fst snd app]; eexists; reflexivity.
  - unfold outcome, shutil_rmtree.
    now destruct (remove_tree os w ".git") as [w1 [e |]].
  - destruct (main_deletions _ (proj2 (main_shape os w)))
      as (found & later & Hchk & Hdel).
    destruct Hrun as [rest Hrun]. rewrite Hrun in Hchk.
    cbn [checks String.eqb Ascii.eqb Bool.eqb] in Hchk.
    injection Hchk as <- _. exact Hdel.
Qed.

(** *** Initialization *)

(** C1. When [git init] fails it is the only command of the run: [main]
    returns at once, without an error and without reaching its last lines.
    When [git init] succeeds the run goes through to its last print and
    issues every unconditional command, whatever the other commands
    answer. *)
Theorem init_failure_halts (os : Host) (w : World os) :
  let t := events (main os) w in
  (verdict init_cmd t = Some false ->
   commands t = [init_cmd] /\
   outcome (main os) w = inr tt /\
   ~ In (EvPrint (LF ++ "✅ Deployment complete!")%string) t) /\
  (verdict init_cmd t = Some true ->
   (exists body, t = body ++ closing) /\
   incl (setup_cmds ++ [initial_commit_cmd; force_push_cmd]) (commands t)).
Proof.
  intros t. destruct (main_shape os w) as [Ho Hm]. fold t in Hm. split.
  - intros Hv. apply (main_aborts t Hm) in Hv.
    split; [| split; [exact Ho |]].
    + unfold commands. now rewrite (opened_steps _ _ Hv).
    + destruct Hv as [r | e r]; unfold ran; simpl;
        destruct r as [x | p]; simpl;
        try destruct (returncode p =? 0)%Z; simpl; intuition discriminate.
  - intros Hv.
    destruct (main_view t Hm Hv) as (te & tb & _ & _ & Hc & _ & _ & Hend).
    split; [exact Hend |]. rewrite Hc.
    intros c Hin. right. apply in_app_iff in Hin. apply in_app_iff.
    destruct Hin as [Hin | Hin]; [now left | right].
    apply in_app_iff. right. simpl in Hin. simpl. tauto.
Qed.

Lemma init_failure_halts_witness :
  (verdict init_cmd (events (main Sim.host) Scenario.no_init) = Some false /\
   commands (events (main Sim.host) Scenario.no_init) = [init_cmd]) /\
  (verdict init_cmd (events (main Sim.host) Scenario.rough) = Some true /\
   exists body, events (main Sim.host) Scenario.rough = body ++ closing).
Proof.
  split; split.
  - reflexivity.
  - apply (proj1 (init_failure_halts Sim.host Scenario.no_init)). reflexivity.
  - reflexivity.
  - apply (proj2 (init_failure_halts Sim.host Scenario.rough)). reflexivity.
Defined.

(** *** The essential files *)

(** C4. In a run where [git init] succeeds, the forced push is issued exactly
    once, right after the one commit of the essential files, whatever the
    configuration and remote commands answered. *)
Theorem forced_push_exactly_once (os : Host) (w : World os) :
  let t := events (main os) w in
  verdict init_cmd t = Some true ->
  count_cmd force_push_cmd t = 1 /\
  count_cmd initial_commit_cmd t = 1 /\
  exists before after,
    commands t = before ++ initial_commit_cmd :: force_push_cmd :: after.
Proof.
  intros t Hv. destruct (main_shape os w) as [_ Hm]. fold t in Hm.
  destruct (main_pushes_once t Hm Hv) as [Hpush Hcommit].
  destruct (main_view t Hm Hv) as (te & tb & _ & _ & Hc & _).
  split; [exact Hpush | split; [exact Hcommit |]].
  exists ((init_cmd :: setup_cmds) ++ commands te), (commands tb).
  rewrite Hc, <- app_assoc. reflexivity.
Qed.

Lemma forced_push_exactly_once_witness :
  verdict init_cmd (events (main Sim.host) Scenario.rough) = Some true /\
  count_cmd force_push_cmd (events (main Sim.host) Scenario.rough) = 1.
Proof.
  split; [reflexivity |].
  exact (proj1 (forced_push_exactly_once Sim.host Scenario.rough eq_refl)).
Defined.

(** C9. When none of the essential files is found, no staging command is
    issued for them, and the first commit and the forced push are still
    issued, once each, right after the setup commands. *)
Theorem commit_and_push_without_essentials (os : Host) (w : World os) :
  let t := events (main os) w in
  verdict init_cmd t = Some true ->
  (forall f, In f essential_files -> checks f t = [false]) ->
  (forall f, In f essential_files -> count_cmd (stage_cmd f) t = 0) /\
  count_cmd initial_commit_cmd t = 1 /\
  count_cmd force_push_cmd t = 1 /\
  exists rest,
    commands t =
      init_cmd :: setup_cmds ++ initial_commit_cmd :: force_push_cmd :: rest.
Proof.
  intros t Hv Habsent. destruct (main_shape os w) as [_ Hm]. fold t in Hm.
  destruct (main_pushes_once t Hm Hv) as [Hpush Hcommit].
  destruct (main_view t Hm Hv) as (te & tb & Hs & Hb & Hc & Hk & _).
  assert (Hte : commands te = []).
  { apply (staged_none _ _ Hs). intros f Hf Hin.
    destruct (essential_not_additional f Hf) as [Hfd Hfg].
    specialize (Habsent f Hf).
    rewrite (Hk f Hfg), (batched_checks _ _ _ Hb Hfd), app_nil_r in Habsent.
    rewrite Habsent in Hin. simpl in Hin. intuition discriminate. }
  rewrite Hte in Hc. cbn [app] in Hc.
  split; [| split; [exact Hcommit | split; [exact Hpush |]]].
  - intros f Hf. unfold count_cmd. rewrite Hc.
    change (init_cmd :: setup_cmds ++
            initial_commit_cmd :: force_push_cmd :: commands tb)
      with ((init_cmd :: setup_cmds ++ [initial_commit_cmd; force_push_cmd])
            ++ commands tb).
    rewrite count_occ_app.
    assert (Htb : count_occ string_dec (commands tb) (stage_cmd f) = 0).
    { apply (not_batched _ _ _ Hb).
      simpl in Hf. decompose [or] Hf; subst; try contradiction; reflexivity. }
    rewrite Htb.
    simpl in Hf. decompose [or] Hf; subst; try contradiction; reflexivity.
  - now exists (commands tb).
Qed.

Lemma commit_and_push_without_essentials_witness :
  verdict init_cmd (events (main Sim.host) Scenario.bare) = Some true /\
  (forall f, In f essential_files ->
             checks f (events (main Sim.host) Scenario.bare) = [false]) /\
  count_cmd initial_commit_cmd (events (main Sim.host) Scenario.bare) = 1 /\
  count_cmd force_push_cmd (events (main Sim.host) Scenario.bare) = 1.
Proof.
  assert (Hnone : forall f, In f essential_files ->
             checks f (events (main Sim.host) Scenario.bare) = [false]).
  { intros f Hf. simpl in Hf.
    decompose [or] Hf; subst; try contradiction; reflexivity. }
  split; [reflexivity | split; [exact Hnone |]].
  destruct (commit_and_push_without_essentials Sim.host Scenario.bare
              eq_refl Hnone) as (_ & Hcommit & Hpush & _).
  split; [exact Hcommit | exact Hpush].
Defined.

(** The loop over the essential files, one step at a time. *)
Lemma essentials_step (os : Host) (g : string) (l : list string) (w : World os) :
  events (for_each (os := os) (g :: l) (fun file =>
            found <- os_path_exists os file ;;
            when found (run_cmd os (stage_cmd file) ;; ret tt))) w =
  EvExists g (path_exists os w g) ::
  (if path_exists os w g
   then ran (stage_cmd g) (snd (spawn os w (stage_cmd g)))
   else []) ++
  events (for_each (os := os) l (fun file =>
            found <- os_path_exists os file ;;
            when found (run_cmd os (stage_cmd file) ;; ret tt)))
         (if path_exists os w g then fst (spawn os w (stage_cmd g)) else w).
Proof.
  pose proof (essentials_loop os l) as Hl. unfold emits in Hl.
  cbn [for_each]. set (rest := for_each l _) in *. clearbody rest. expose.
  destruct (path_exists os w g); run;
    match goal with
    | |- context [rest ?w'] =>
        destruct (Hl w') as ([] & Ho & _); unfold outcome in Ho;
        destruct (rest w') as [[wz tz] rz]; cbn [snd] in Ho; subst rz
    end;
    cbn [fst snd app]; now rewrite ?app_nil_r.
Qed.

(** Each essential file is answered by the host, in the state the loop has
    reached. *)
Lemma essentials_checks (os : Host) (l : list string) (w : World os) (f : string) :
  NoDup l -> In f l ->
  checks f (events (for_each (os := os) l (fun file =>
              found <- os_path_exists os file ;;
              when found (run_cmd os (stage_cmd file) ;; ret tt))) w) =
  [path_exists os (at_check os l w f) f].
Proof.
  revert w. induction l as [| g l IH]; intros w Hnd Hin; [destruct Hin |].
  inversion Hnd as [| ? ? Hg Hl]; subst.
  rewrite essentials_step. cbn [checks at_check].
  rewrite checks_app.
  assert (Hq : forall b r, checks f (if b : bool then ran (stage_cmd g) r else []) = [])
    by (intros [|] r; [apply checks_quiet, quiet_ran | reflexivity]).
  rewrite Hq. cbn [app].
  destruct (String.eqb_spec f g) as [-> | Hfg].
  - f_equal.
    destruct (essentials_loop os l
                (if path_exists os w g
                 then fst (spawn os w (stage_cmd g)) else w))
      as (_ & _ & Hs).
    exact (staged_checks _ _ _ Hs Hg).
  - apply IH; [exact Hl | destruct Hin; [congruence | assumption]].
Qed.

Lemma leads_to_here (x rest : trace) : leads_to x (x ++ rest).
Proof. exists [], rest. now split. Qed.

Lemma leads_to_later (a x t : trace) :
  (forall f, f <> ".git"%string -> checks f a = []) ->
  leads_to x t -> leads_to x (a ++ t).
Proof.
  intros Ha (prefix & rest & -> & Hp). exists (a ++ prefix), rest.
  split; [now rewrite <- app_assoc |].
  intros f Hf. now rewrite checks_app, (Ha f Hf), (Hp f Hf).
Qed.

(** A run that passes [git init] reaches the loop over the essential files
    on the host that the cleanup and the first five commands have left. *)
Lemma main_reaches_essentials (os : Host) (w : World os) :
  succeeded (snd (spawn os (after_cleanup os w) init_cmd)) = true ->
  leads_to
    (events (for_each (os := os) essential_files (fun file =>
               found <- os_path_exists os file ;;
               when found (run_cmd os (stage_cmd file) ;; ret tt)))
            (after_commands os (init_cmd :: setup_cmds) (after_cleanup os w)))
    (events (main os) w).
Proof.
  unfold after_commands, after_cleanup, setup_cmds, init_cmd.
  cbn [fold_left]. unfold main.
  match goal with
  | |- context [@bind _ _ _ (for_each essential_files ?body) ?k] =>
      pose proof (essentials_loop os essential_files) as Hl;
      unfold emits in Hl;
      change (for_each essential_files body)
        with (for_each (os := os) essential_files (fun file =>
                found <- os_path_exists os file ;;
                when found (run_cmd os (stage_cmd file) ;; ret tt)));
      set (loop := for_each essential_files _) in *;
      set (after_loop := k); clearbody after_loop loop
  end.
  intros Hinit. revert Hinit. expose. unfold shutil_rmtree.
  destruct (path_exists os w ".git");
    [destruct (remove_tree os w ".git") as [w0 [e |]] |];
    cbn [fst snd]; intros Hinit; run; rewrite Hinit; cbn [negb]; run;
    match goal with
    | |- context [loop ?w'] =>
        destruct (Hl w') as ([] & Ho & _); unfold outcome in Ho;
        destruct (loop w') as [[wz tz] rz]; cbn [snd] in Ho; subst rz
    end;
    match goal with
    | |- context [after_loop ?u ?w'] =>
        destruct (after_loop u w') as [[wk tk] rk]
    end;
    cbn [fst snd];
    repeat (apply leads_to_later;
            [intros f Hf; cbn [checks];
             first [ apply checks_quiet, quiet_ran
                   | now destruct (String.eqb_spec f ".git")
                   | reflexivity ] |]);
    apply leads_to_here.
Qed.

(** The essential files found, counted over the files rather than over the
    events. *)
Lemma staged_found_count (l : list string) (t : trace) :
  staged l t -> NoDup l -> incl l essential_files ->
  length (filter essential_found t) =
  length (filter (fun f => existsb (fun b : bool => b) (checks f t)) l).
Proof.
  induction 1 as [| f l t Ht IH | f l t r Ht IH]; intros Hnd Hl;
    [reflexivity | |];
    inversion Hnd as [| ? ? Hf Hnd']; subst;
    assert (Hl' : incl l essential_files)
      by (intros x Hx; apply Hl; now right);
    cbn [filter essential_found checks]; rewrite String.eqb_refl.
  - rewrite (staged_checks _ _ _ Ht Hf). cbn [existsb orb].
    rewrite (IH Hnd' Hl'). f_equal. apply filter_ext_in. intros g Hg.
    cbn [checks]. destruct (String.eqb_spec g f) as [-> | _];
      [contradiction | reflexivity].
  - rewrite (proj2 (mem_In _ _) (Hl f (or_introl eq_refl))).
    cbn [existsb orb length].
    rewrite (found_quiet _ _ (quiet_ran _ r)), (IH Hnd' Hl').
    do 2 f_equal. apply filter_ext_in. intros g Hg.
    cbn [checks]. destruct (String.eqb_spec g f) as [-> | _];
      [contradiction |].
    now rewrite checks_app, (checks_quiet _ _ (quiet_ran _ r)).
Qed.

(** C3. In a run that reaches the essential files, each of them is checked
    once, the answer is that of the host at that moment (after the cleanup,
    the setup commands and the stagings before it), and its staging command
    is issued once if the file is on disk and not at all otherwise; so there
    are as many staging commands for essential files as essential files on
    disk. *)
Theorem essentials_staged_iff_found (os : Host) (w : World os) :
  let t := events (main os) w in
  verdict init_cmd t = Some true ->
  (forall f, In f essential_files ->
     checks f t = [path_exists os (check_world os w f) f] /\
     count_cmd (stage_cmd f) t =
       if path_exists os (check_world os w f) f then 1 else 0) /\
  essential_stagings t = essentials_on_disk t /\
  essential_stagings t =
    length (filter (fun f => path_exists os (check_world os w f) f)
                   essential_files).
Proof.
  intros t Hv. destruct (main_shape os w) as [_ Hm]. fold t in Hm.
  destruct (main_view t Hm Hv) as (te & tb & Hs & Hb & Hc & Hk & Hf & _).
  assert (Hinit : succeeded (snd (spawn os (after_cleanup os w) init_cmd)) = true).
  { revert Hv. unfold t, main, after_cleanup.
    match goal with
    | |- context [@bind _ _ _ (run_cmd _ "git init -b main") ?k] =>
        set (rest_of_main := k); clearbody rest_of_main
    end.
    expose. unfold shutil_rmtree.
    destruct (path_exists os w ".git");
      [destruct (remove_tree os w ".git") as [w0 [e |]] |];
      rewrite run_cmd_eq; cbv beta iota;
      match goal with
      | |- context [rest_of_main ?b ?w'] =>
          destruct (rest_of_main b w') as [[w2 t2] r2]
      end;
      cbn [fst snd app verdict]; unfold ran; cbn [app verdict];
      change (String.eqb init_cmd "git init -b main") with true;
      cbv iota; intros H; injection H as H; exact H. }
  assert (Hhost : forall f, In f essential_files ->
            checks f te = [path_exists os (check_world os w f) f] /\
            checks f t = [path_exists os (check_world os w f) f]).
  { intros f Hin.
    destruct (essential_not_additional f Hin) as [Hfd Hfg].
    destruct (staged_once _ _ f Hs essential_files_distinct Hin)
      as (found & Hchk & _).
    assert (Ht : checks f t = [found])
      by (now rewrite (Hk f Hfg), (batched_checks _ _ _ Hb Hfd), app_nil_r).
    destruct (main_reaches_essentials os w Hinit)
      as (prefix & rest & E & Hpre).
    fold t in E. pose proof Ht as Ht'.
    rewrite E, !checks_app, (Hpre f Hfg) in Ht'.
    rewrite (essentials_checks os _ _ f essential_files_distinct Hin) in Ht'.
    cbn [app] in Ht'. injection Ht' as Ht' _.
    change (path_exists os (check_world os w f) f = found) in Ht'.
    rewrite Ht'. now split. }
  split; [| split].
  - intros f Hin. split; [apply (Hhost f Hin) |].
    destruct (essential_not_additional f Hin) as [Hfd Hfg].
    destruct (staged_once _ _ f Hs essential_files_distinct Hin)
      as (found & Hchk & Hcnt).
    rewrite (proj1 (Hhost f Hin)) in Hchk. injection Hchk as <-.
    unfold count_cmd in *. rewrite Hc.
    change (init_cmd :: setup_cmds ++ commands te ++
            initial_commit_cmd :: force_push_cmd :: commands tb)
      with ((init_cmd :: setup_cmds) ++ commands te ++
            [initial_commit_cmd; force_push_cmd] ++ commands tb).
    rewrite !count_occ_app, Hcnt.
    assert (Htb : count_occ string_dec (commands tb) (stage_cmd f) = 0).
    { apply (not_batched _ _ _ Hb). simpl in Hin.
      decompose [or] Hin; subst; try contradiction; reflexivity. }
    rewrite Htb. clear Hcnt.
    assert (Hfix :
      count_occ string_dec (init_cmd :: setup_cmds) (stage_cmd f) = 0 /\
      count_occ string_dec [initial_commit_cmd; force_push_cmd]
                (stage_cmd f) = 0).
    { simpl in Hin.
      decompose [or] Hin; subst; try contradiction; split; reflexivity. }
    destruct Hfix as [-> ->]. now rewrite !Nat.add_0_r.
  - unfold essential_stagings, essentials_on_disk. rewrite Hf, Hc.
    change (init_cmd :: setup_cmds ++ commands te ++
            initial_commit_cmd :: force_push_cmd :: commands tb)
      with ((init_cmd :: setup_cmds) ++ commands te ++
            [initial_commit_cmd; force_push_cmd] ++ commands tb).
    rewrite !filter_app.
    rewrite (filter_outside _ _ _ (batched_commands _ _ Hb)) by reflexivity.
    change (filter is_essential_stage (init_cmd :: setup_cmds))
      with (@nil string).
    change (filter is_essential_stage [initial_commit_cmd; force_push_cmd])
      with (@nil string).
    cbn [app]. rewrite app_nil_r.
    apply (staged_tally _ _ Hs). apply incl_refl.
  - assert (Hsame : essential_stagings t = essentials_on_disk t).
    { unfold essential_stagings, essentials_on_disk. rewrite Hf, Hc.
      change (init_cmd :: setup_cmds ++ commands te ++
              initial_commit_cmd :: force_push_cmd :: commands tb)
        with ((init_cmd :: setup_cmds) ++ commands te ++
              [initial_commit_cmd; force_push_cmd] ++ commands tb).
      rewrite !filter_app.
      rewrite (filter_outside _ _ _ (batched_commands _ _ Hb)) by reflexivity.
      change (filter is_essential_stage (init_cmd :: setup_cmds))
        with (@nil string).
      change (filter is_essential_stage [initial_commit_cmd; force_push_cmd])
        with (@nil string).
      cbn [app]. rewrite app_nil_r.
      apply (staged_tally _ _ Hs). apply incl_refl. }
    rewrite Hsame. unfold essentials_on_disk. rewrite Hf.
    rewrite (staged_found_count _ _ Hs essential_files_distinct (incl_refl _)).
    f_equal. apply filter_ext_in. intros f Hin.
    rewrite (proj1 (Hhost f Hin)). cbn [existsb]. apply orb_false_r.
Qed.

Lemma essentials_staged_iff_found_witness :
  verdict init_cmd (events (main Sim.host) Scenario.rough) = Some true /\
  path_exists Sim.host (check_world Sim.host Scenario.rough "package.json")
              "package.json" = true /\
  count_cmd (stage_cmd "package.json")
            (events (main Sim.host) Scenario.rough) = 1 /\
  essential_stagings (events (main Sim.host) Scenario.rough) = 1.
Proof.
  split; [reflexivity | split; [reflexivity |]].
  destruct (essentials_staged_iff_found Sim.host Scenario.rough eq_refl)
    as (Hfile & _ & Htotal).
  split.
  - exact (proj2 (Hfile "package.json"%string (or_introl eq_refl))).
  - exact Htotal.
Defined.

(** *** The additional paths *)

Lemma batch_commands_differ (p : string) :
  commit_cmd p <> stage_cmd p /\ push_cmd <> stage_cmd p /\
  push_cmd <> commit_cmd p.
Proof.
  unfold commit_cmd, stage_cmd, push_cmd. simpl. repeat split; discriminate.
Qed.

(** C10. In the cycle of an additional path that is found on disk, either
    the staging command fails and it is the only command of the cycle, or it
    succeeds and the commit and the push follow, the push whatever the commit
    answered. *)
Theorem staging_gates_commit_and_push
        (os : Host) (w : World os) (p : string) (seg : trace) :
  In p dirs_to_add ->
  cycle p (events (main os) w) = Some (true, seg) ->
  steps seg = [(stage_cmd p, false)] \/
  exists committed pushed,
    steps seg = [(stage_cmd p, true); (commit_cmd p, committed);
                 (push_cmd, pushed)].
Proof.
  intros Hp Hc. destruct (main_shape os w) as [_ Hm].
  apply (proj2 (main_cycle _ p Hm Hp)) in Hc.
  inversion Hc as [| | c ps]; [now left | right]. now exists c, ps.
Qed.

Lemma staging_gates_commit_and_push_witness :
  exists seg,
    In "docs"%string dirs_to_add /\
    cycle "docs" (events (main Sim.host) Scenario.bare) = Some (true, seg) /\
    (steps seg = [(stage_cmd "docs", false)] \/
     exists committed pushed,
       steps seg = [(stage_cmd "docs", true); (commit_cmd "docs", committed);
                    (push_cmd, pushed)]).
Proof.
  eexists. split; [simpl; tauto |]. split; [reflexivity |].
  apply (staging_gates_commit_and_push Sim.host Scenario.bare "docs");
    [simpl; tauto | reflexivity].
Defined.

(** C2, as stated, fails: when staging a path that is on disk fails, its
    commit and its push are not attempted. *)
Lemma every_step_attempted_fails :
  ~ every_step_attempted Sim.host Scenario.rough.
Proof.
  intros H.
  assert (Hin : In "docs"%string dirs_to_add) by (simpl; tauto).
  specialize (H "docs"%string _ Hin eq_refl).
  vm_compute in H. discriminate H.
Qed.

(** C2, amended. For an additional path that is found on disk the staging
    command is always attempted; the commit and the push of that path are
    attempted exactly when the staging succeeded, the push not depending on
    the commit. *)
Theorem commit_and_push_follow_staging
        (os : Host) (w : World os) (p : string) (seg : trace) :
  In p dirs_to_add ->
  cycle p (events (main os) w) = Some (true, seg) ->
  In (stage_cmd p) (commands seg) /\
  (In (commit_cmd p) (commands seg) <-> In (stage_cmd p, true) (steps seg)) /\
  (In push_cmd (commands seg) <-> In (stage_cmd p, true) (steps seg)).
Proof.
  intros Hp Hc. destruct (main_shape os w) as [_ Hm].
  apply (proj2 (main_cycle _ p Hm Hp)) in Hc.
  destruct (batch_commands_differ p) as (Hcs & Hps & Hpc).
  unfold commands.
  inversion Hc as [| E | c ps E]; cbn [map fst In].
  - split; [now left |]. split; split; intros [K | []];
      congruence.
  - split; [now left |]. split; split; intros _; tauto.
Qed.

Lemma commit_and_push_follow_staging_witness :
  exists seg,
    In "docs"%string dirs_to_add /\
    cycle "docs" (events (main Sim.host) Scenario.rough) = Some (true, seg) /\
    In (stage_cmd "docs") (commands seg) /\
    (In push_cmd (commands seg) <-> In (stage_cmd "docs", true) (steps seg)).
Proof.
  eexists. split; [simpl; tauto |]. split; [reflexivity |].
  assert (Hin : In "docs"%string dirs_to_add) by (simpl; tauto).
  destruct (commit_and_push_follow_staging Sim.host Scenario.rough "docs" _
              Hin eq_refl) as (Hstage & _ & Hpush).
  split; [exact Hstage | exact Hpush].
Defined.

(** C7. In a completed run every additional path has its own cycle, whatever
    happened in the cycles of the other paths: it is checked, if it is found
    its staging command is issued, and if that succeeds its commit and its
    push are issued. *)
Theorem cycles_are_independent (os : Host) (w : World os) :
  verdict init_cmd (events (main os) w) = Some true ->
  forall p, In p dirs_to_add ->
  exists found seg,
    cycle p (events (main os) w) = Some (found, seg) /\
    (found = true -> In (stage_cmd p) (commands seg)) /\
    (In (stage_cmd p, true) (steps seg) ->
     In (commit_cmd p) (commands seg) /\ In push_cmd (commands seg)).
Proof.
  intros Hv p Hp. destruct (main_shape os w) as [_ Hm].
  destruct (main_cycle _ p Hm Hp) as [Hsome Hsteps].
  specialize (Hsome Hv).
  destruct (cycle p (events (main os) w)) as [[found seg] |] eqn:E;
    [| contradiction].
  exists found, seg. split; [reflexivity |].
  specialize (Hsteps found seg eq_refl). unfold commands.
  inversion Hsteps as [Hf E' | Hf E' | c ps Hf E']; cbn [map fst In].
  - split; [discriminate | tauto].
  - split; [now left |]. intros [H | []]. discriminate.
  - split; [now left |]. intros _. tauto.
Qed.

Lemma cycles_are_independent_witness :
  verdict init_cmd (events (main Sim.host) Scenario.bare) = Some true /\
  In (commit_cmd "docs", false) (steps (events (main Sim.host) Scenario.bare)) /\
  exists seg,
    cycle "nginx" (events (main Sim.host) Scenario.bare) = Some (true, seg) /\
    In (stage_cmd "nginx") (commands seg).
Proof.
  split; [reflexivity |]. split; [vm_compute; tauto |].
  assert (Hin : In "nginx"%string dirs_to_add) by (simpl; tauto).
  destruct (cycles_are_independent Sim.host Scenario.bare eq_refl "nginx" Hin)
    as (found & seg & Hc & Hstage & _).
  vm_compute in Hc. injection Hc as <- <-.
  eexists. split; [reflexivity |]. exact (Hstage eq_refl).
Defined.

(** ** Further properties of the script *)

Lemma main_inited (t : trace) :
  main_trace t -> exists b, verdict init_cmd t = Some b.
Proof.
  intros [t0 Ho | t0 t' Ho Hd].
  - exists false. rewrite <- (app_nil_r t0). now apply opened_verdict.
  - exists true. now apply opened_verdict.
Qed.

Lemma commands_check (p : string) (b : bool) (t : trace) :
  commands (EvExists p b :: t) = commands t.
Proof. reflexivity. Qed.

Lemma commands_print (line : string) (t : trace) :
  commands (EvPrint line :: t) = commands t.
Proof. reflexivity. Qed.

Lemma commands_ran (cmd : string) (r : exn + CompletedProcess) (t : trace) :
  commands (ran cmd r ++ t) = cmd :: commands t.
Proof. unfold commands. now rewrite steps_app, steps_ran. Qed.

(** *** The order of the commands *)

Lemma subseq_refl {A : Type} (l : list A) : subseq l l.
Proof. induction l; constructor; assumption. Qed.

Lemma subseq_nil_l {A : Type} (l : list A) : subseq [] l.
Proof. induction l; constructor; assumption. Qed.

Lemma subseq_app {A : Type} (a a' b b' : list A) :
  subseq a a' -> subseq b b' -> subseq (a ++ b) (a' ++ b').
Proof.
  intros Ha Hb. induction Ha; cbn [app]; try constructor; assumption.
Qed.

Lemma subseq_length {A : Type} (l l' : list A) :
  subseq l l' -> length l <= length l'.
Proof. induction 1; cbn [length]; lia. Qed.

Lemma staged_subseq (l : list string) (t : trace) :
  staged l t -> subseq (commands t) (map stage_cmd l).
Proof.
  induction 1 as [| f l t _ IH | f l t r _ IH]; cbn [map].
  - constructor.
  - rewrite commands_check. now constructor.
  - rewrite commands_check, commands_ran. now constructor.
Qed.

Lemma batched_subseq (l : list string) (t : trace) :
  batched l t ->
  subseq (commands t)
         (flat_map (cycle_plan (fun _ => true) (fun _ => true)) l).
Proof.
  induction 1 as [| p l t _ IH | p l t r _ _ IH | p l t r rc rp _ _ IH];
    cbn [flat_map cycle_plan app];
    rewrite ?commands_check, ?commands_print, ?commands_ran.
  - constructor.
  - now repeat apply subseq_drop.
  - apply subseq_keep. now repeat apply subseq_drop.
  - now repeat apply subseq_keep.
Qed.

(** X1. The commands of any run are the commands of the run in which
    everything is found and succeeds, with some left out: nothing else is
    ever run, the order never changes, and at most 25 processes are
    spawned. *)
Theorem commands_within_full_plan (os : Host) (w : World os) :
  subseq (commands (events (main os) w)) full_plan /\
  length (commands (events (main os) w)) <= 25.
Proof.
  assert (H : subseq (commands (events (main os) w)) full_plan).
  { destruct (main_shape os w) as [_ Hm].
    destruct (main_inited _ Hm) as [[|] Hv].
    - destruct (main_view _ Hm Hv) as (te & tb & Hs & Hb & Hc & _).
      rewrite Hc.
      change full_plan
        with (init_cmd :: setup_cmds ++ map stage_cmd essential_files ++
              [initial_commit_cmd; force_push_cmd] ++
              flat_map (cycle_plan (fun _ => true) (fun _ => true)) dirs_to_add).
      apply subseq_keep, subseq_app; [apply subseq_refl |].
      apply subseq_app; [now apply staged_subseq |].
      apply (subseq_app [_; _]); [apply subseq_refl |].
      now apply batched_subseq.
    - apply (main_aborts _ Hm) in Hv. unfold commands.
      rewrite (opened_steps _ _ Hv). apply subseq_keep, subseq_nil_l. }
  split; [exact H |]. apply subseq_length in H. exact H.
Qed.

(** *** The existence checks *)

Lemma probes_app (a b : trace) : probes (a ++ b) = probes a ++ probes b.
Proof.
  induction a as [| e a IH]; [reflexivity |].
  destruct e; simpl; now rewrite ?IH.
Qed.

Lemma probes_quiet (a : trace) : quiet a -> probes a = [].
Proof.
  induction 1 as [| e a He _ IH]; [reflexivity |].
  destruct e; simpl in *; trivial. discriminate.
Qed.

Lemma staged_probes (l : list string) (t : trace) :
  staged l t -> probes t = l.
Proof.
  induction 1 as [| f l t _ IH | f l t r _ IH]; cbn [probes]; trivial.
  - now rewrite IH.
  - now rewrite probes_app, (probes_quiet _ (quiet_ran _ r)), IH.
Qed.

Lemma batched_probes (l : list string) (t : trace) :
  batched l t -> probes t = l.
Proof.
  induction 1 as [| p l t _ IH | p l t r _ _ IH | p l t r rc rp _ _ IH];
    cbn [probes]; trivial;
    rewrite ?probes_app, ?(probes_quiet _ (quiet_ran _ _)), IH; reflexivity.
Qed.

Lemma opened_probes (b : bool) (t : trace) :
  opened b t -> probes t = [".git"%string].
Proof.
  intros [r | e r]; cbn [probes]; now rewrite (probes_quiet _ (quiet_ran _ r)).
Qed.

(** X2. Every run checks [.git] first.  After a failed [git init] nothing
    else is checked; otherwise each essential file and then each additional
    path is checked exactly once, in the order of the lists, and nothing else
    is ever checked. *)
Theorem probes_in_order (os : Host) (w : World os) :
  probes (events (main os) w) =
  ".git"%string ::
  (if passed (events (main os) w) init_cmd
   then essential_files ++ dirs_to_add
   else []).
Proof.
  destruct (main_shape os w) as [_ Hm]. unfold passed.
  destruct Hm as [t0 Ho | t0 t' Ho Hd].
  - rewrite <- (app_nil_r t0) at 2. rewrite (opened_verdict _ _ _ Ho).
    apply (opened_probes _ _ Ho).
  - rewrite (opened_verdict _ _ _ Ho).
    destruct (deployed_parts t' Hd)
      as (pre & te & mid & tb & -> & Hs & Hb & Qpre & Qmid & _ & _).
    rewrite !probes_app, (opened_probes _ _ Ho).
    rewrite (probes_quiet _ Qpre), (probes_quiet _ Qmid).
    rewrite (staged_probes _ _ Hs), (batched_probes _ _ Hb).
    change (probes closing) with (@nil string). cbn [app].
    now rewrite !app_nil_r.
Qed.

(** *** The commands as a function of what the run observes *)

Lemma verdict_skip (c : string) (a b : trace) :
  ~ In c (commands a) -> verdict c (a ++ b) = verdict c b.
Proof.
  unfold commands.
  induction a as [| e a IH]; intros Hc; [reflexivity |].
  destruct e; cbn [app verdict]; try (apply IH; exact Hc).
  destruct (String.eqb_spec c cmd) as [-> | _].
  - exfalso. apply Hc. now left.
  - apply IH. intros H. apply Hc. now right.
Qed.

Lemma verdict_silent (c : string) (a : trace) :
  steps a = [] -> verdict c a = None.
Proof.
  induction a as [| e a IH]; intros Hs; [reflexivity |].
  destruct e; cbn [verdict steps] in *; try (apply IH; exact Hs).
  discriminate.
Qed.

Lemma verdict_tail (c : string) (a b : trace) :
  steps b = [] -> verdict c (a ++ b) = verdict c a.
Proof.
  intros Hb. induction a as [| e a IH]; cbn [app].
  - now apply verdict_silent.
  - destruct e; cbn [verdict]; trivial. now rewrite IH.
Qed.

Lemma verdict_ran (c cmd : string) (r : exn + CompletedProcess) (t : trace) :
  verdict c (ran cmd r ++ t) =
  if String.eqb c cmd then Some (succeeded r) else verdict c t.
Proof.
  unfold ran. cbn [app verdict]. destruct (String.eqb c cmd); trivial.
  apply verdict_skip. unfold commands. now rewrite steps_complaint.
Qed.

Lemma found_in_same (f : string) (b : bool) (t : trace) :
  found_in (EvExists f b :: t) f = b.
Proof. unfold found_in. cbn [checks]. now rewrite String.eqb_refl. Qed.

Lemma found_in_other (g f : string) (b : bool) (t : trace) :
  g <> f -> found_in (EvExists f b :: t) g = found_in t g.
Proof.
  intros Hg. unfold found_in. cbn [checks].
  now destruct (String.eqb_spec g f).
Qed.

Lemma found_in_quiet (a t : trace) (g : string) :
  quiet a -> found_in (a ++ t) g = found_in t g.
Proof. intros Ha. unfold found_in. now rewrite checks_app, checks_quiet. Qed.

Lemma flat_map_same {A B : Type} (f g : A -> list B) (l : list A) :
  (forall a, In a l -> f a = g a) -> flat_map f l = flat_map g l.
Proof.
  induction l as [| a l IH]; intros H; [reflexivity |].
  cbn [flat_map]. rewrite (H a (or_introl eq_refl)). f_equal.
  apply IH. intros x Hx. apply H. now right.
Qed.

Lemma staged_plan (l : list string) (t : trace) :
  staged l t -> NoDup l ->
  commands t = map stage_cmd (filter (found_in t) l).
Proof.
  induction 1 as [| f l t _ IH | f l t r _ IH]; intros Hnd;
    [reflexivity | |];
    inversion Hnd as [| ? ? Hf Hl]; subst;
    rewrite ?commands_check, ?commands_ran;
    cbn [filter]; rewrite found_in_same; cbn [map]; rewrite (IH Hl).
  - f_equal. apply filter_ext_in. intros g Hg.
    assert (Hgf : g <> f) by (intros ->; contradiction).
    now rewrite (found_in_other _ _ _ _ Hgf).
  - do 2 f_equal. apply filter_ext_in. intros g Hg.
    assert (Hgf : g <> f) by (intros ->; contradiction).
    rewrite (found_in_other _ _ _ _ Hgf).
    symmetry. apply found_in_quiet, quiet_ran.
Qed.

Lemma stage_is_no_other (p : string) :
  ~ In (stage_cmd p)
       (init_cmd :: setup_cmds ++ [initial_commit_cmd; force_push_cmd]) /\
  (forall q, stage_cmd p <> commit_cmd q) /\
  stage_cmd p <> push_cmd.
Proof.
  unfold stage_cmd, commit_cmd, push_cmd. simpl.
  repeat split; try discriminate. intuition discriminate.
Qed.

Lemma batched_plan (l : list string) (t : trace) :
  batched l t -> NoDup l ->
  commands t =
  flat_map (cycle_plan (found_in t) (fun p => passed t (stage_cmd p))) l.
Proof.
  induction 1 as [| p l t _ IH | p l t r Hr _ IH | p l t r rc rp Hr _ IH];
    intros Hnd; [reflexivity | | |];
    inversion Hnd as [| ? ? Hp Hl]; subst;
    rewrite ?commands_check, ?commands_print, ?commands_ran;
    cbn [flat_map]; unfold cycle_plan at 1; rewrite found_in_same.
  - cbn [app]. rewrite (IH Hl). apply flat_map_same. intros q Hq.
    assert (Hqp : q <> p) by (intros ->; contradiction).
    unfold cycle_plan, passed. now rewrite (found_in_other _ _ _ _ Hqp).
  - unfold passed at 1. cbn [verdict].
    rewrite verdict_ran, String.eqb_refl, Hr. cbn [app].
    f_equal. rewrite (IH Hl). apply flat_map_same. intros q Hq.
    assert (Hqp : q <> p) by (intros ->; contradiction).
    assert (Hst : String.eqb (stage_cmd q) (stage_cmd p) = false).
    { apply String.eqb_neq. intros E. now apply stage_cmd_inj in E. }
    unfold cycle_plan, passed. cbn [verdict].
    rewrite verdict_ran, Hst, (found_in_other _ _ _ _ Hqp).
    unfold found_in. cbn [checks].
    now rewrite checks_app, (checks_quiet _ _ (quiet_ran _ r)).
  - unfold passed at 1. cbn [verdict].
    rewrite verdict_ran, String.eqb_refl, Hr. cbn [app].
    do 3 f_equal. rewrite (IH Hl). apply flat_map_same. intros q Hq.
    assert (Hqp : q <> p) by (intros ->; contradiction).
    assert (Hst : String.eqb (stage_cmd q) (stage_cmd p) = false).
    { apply String.eqb_neq. intros E. now apply stage_cmd_inj in E. }
    destruct (stage_is_no_other q) as (_ & Hco & Hpu).
    apply String.eqb_neq in Hpu. specialize (Hco p).
    apply String.eqb_neq in Hco.
    unfold cycle_plan, passed. cbn [verdict].
    rewrite !verdict_ran, Hst, Hco, Hpu, (found_in_other _ _ _ _ Hqp).
    unfold found_in. cbn [checks].
    now rewrite !checks_app, !(checks_quiet _ _ (quiet_ran _ _)).
Qed.

Lemma opened_commands (b : bool) (t : trace) :
  opened b t -> commands t = [init_cmd].
Proof. intros Ho. unfold commands. now rewrite (opened_steps _ _ Ho). Qed.

Lemma dirs_to_add_distinct : NoDup dirs_to_add.
Proof.
  unfold dirs_to_add.
  repeat (constructor; [simpl; intuition discriminate |]). constructor.
Qed.

Lemma main_plan (t : trace) :
  main_trace t ->
  commands t =
  plan (passed t init_cmd) (found_in t) (fun p => passed t (stage_cmd p)).
Proof.
  intros Hm.
  destruct Hm as [t0 Ho | t0 t' Ho Hd].
  - unfold passed at 1. rewrite <- (app_nil_r t0) at 2.
    rewrite (opened_verdict _ _ _ Ho). apply (opened_commands _ _ Ho).
  - unfold passed at 1. rewrite (opened_verdict _ _ _ Ho).
    destruct (deployed_parts t' Hd)
      as (pre & te & mid & tb & -> & Hs & Hb & Qpre & Qmid & Cpre & Cmid).
    set (T := t0 ++ pre ++ te ++ mid ++ tb ++ closing).
    assert (Hcmd : commands T =
              init_cmd :: setup_cmds ++ commands te ++
              [initial_commit_cmd; force_push_cmd] ++ commands tb).
    { unfold T. rewrite !commands_app, (opened_commands _ _ Ho), Cpre, Cmid.
      change (commands closing) with (@nil string).
      now rewrite app_nil_r. }
    rewrite Hcmd. unfold plan. cbn [app]. f_equal. f_equal.
    rewrite (staged_plan _ _ Hs essential_files_distinct).
    rewrite (batched_plan _ _ Hb dirs_to_add_distinct).
    f_equal; [f_equal | f_equal; f_equal].
    + apply filter_ext_in. intros f Hf.
      destruct (essential_not_additional f Hf) as [_ Hfg].
      destruct (staged_once _ _ f Hs essential_files_distinct Hf)
        as (b & Hchk & _).
      unfold found_in, T.
      rewrite !checks_app, (opened_quiet_for _ _ _ Ho Hfg).
      now rewrite (checks_quiet _ _ Qpre), Hchk.
    + apply flat_map_same. intros p Hp.
      destruct (additional_not_essential p Hp) as [Hpe Hpg].
      destruct (stage_is_no_other p) as (Hfix & _ & _).
      assert (Hfound : found_in tb p = found_in T p).
      { unfold found_in, T.
        rewrite !checks_app, (opened_quiet_for _ _ _ Ho Hpg).
        rewrite (checks_quiet _ _ Qpre), (staged_checks _ _ _ Hs Hpe).
        rewrite (checks_quiet _ _ Qmid).
        change (checks p closing) with (@nil bool).
        now rewrite app_nil_r. }
      assert (Hpass : passed tb (stage_cmd p) = passed T (stage_cmd p)).
      { unfold passed, T.
        rewrite verdict_skip
          by (rewrite (opened_commands _ _ Ho); intros [E | []];
              apply Hfix; now left).
        rewrite verdict_skip
          by (rewrite Cpre; intros H; apply Hfix; right;
              apply in_app_iff; now left).
        rewrite verdict_skip
          by (intros H; apply (staged_commands _ _ Hs), in_map_iff in H;
              destruct H as (x & E & Hx); apply stage_cmd_inj in E;
              now subst).
        rewrite verdict_skip
          by (rewrite Cmid; intros H; apply Hfix; right;
              apply in_app_iff; now right).
        now rewrite (verdict_tail _ _ _ steps_closing). }
      unfold cycle_plan. now rewrite Hfound, Hpass.
Qed.

(** X3. The commands of a run are determined by three observations: the
    verdict of [git init], which paths are found on disk, and which additional
    paths are staged successfully.  The verdicts of the configuration, remote,
    commit and push commands never change what is run. *)
Theorem commands_follow_plan (os : Host) (w : World os) :
  commands (events (main os) w) =
  plan (passed (events (main os) w) init_cmd)
       (found_in (events (main os) w))
       (fun p => passed (events (main os) w) (stage_cmd p)).
Proof. apply main_plan, main_shape. Qed.

(** *** The lines printed *)

Lemma lines_app (a b : trace) : lines (a ++ b) = lines a ++ lines b.
Proof.
  induction a as [| e a IH]; [reflexivity |].
  destruct e; simpl; now rewrite ?IH.
Qed.

Lemma lines_known (pushed : bool) (t : trace) (s : string) :
  Forall (known_event pushed) t -> In s (lines t) ->
  known_event pushed (EvPrint s).
Proof.
  induction 1 as [| e t He _ IH]; intros Hs; [destruct Hs |].
  destruct e; cbn [lines] in Hs; auto.
  destruct Hs as [<- | Hs]; auto.
Qed.

Lemma chatter_ran (l : list string) (cmd : string) (r : exn + CompletedProcess) :
  Forall (chatter l) (ran cmd r).
Proof.
  unfold ran. constructor; [exact I |].
  destruct r as [e | p]; simpl.
  - constructor; [left; reflexivity | constructor].
  - destruct (returncode p =? 0)%Z; repeat constructor.
Qed.

Lemma chatter_more (l l' : list string) (t : trace) :
  incl l l' -> Forall (chatter l) t -> Forall (chatter l') t.
Proof.
  intros Hl. apply Forall_impl. intros [s | | |]; trivial.
  intros [H | (q & Hq & E)]; [now left | right].
  exists q. split; [now apply Hl | exact E].
Qed.

Lemma staged_chatter (l : list string) (t : trace) :
  staged l t -> Forall (chatter []) t.
Proof.
  induction 1 as [| f l t _ IH | f l t r _ IH].
  - constructor.
  - constructor; [exact I | exact IH].
  - constructor; [exact I |].
    apply Forall_app. split; [apply chatter_ran | exact IH].
Qed.

Lemma batched_chatter (l : list string) (t : trace) :
  batched l t -> Forall (chatter l) t.
Proof.
  induction 1 as [| p l t _ IH | p l t r _ _ IH | p l t r rc rp _ _ IH];
    [constructor | | |];
    apply (chatter_more l (p :: l)) in IH; try (apply incl_tl, incl_refl);
    (constructor; [exact I |]); trivial;
    (constructor; [right; exists p; split; [now left | reflexivity] |]);
    repeat (apply Forall_app; split; [apply chatter_ran |]); exact IH.
Qed.

Lemma known_chatter (pushed : bool) (l : list string) (t : trace) :
  incl l dirs_to_add -> Forall (chatter l) t -> Forall (known_event pushed) t.
Proof.
  intros Hl Ht. apply (chatter_more _ _ _ Hl) in Ht. revert Ht.
  apply Forall_impl. intros [s | | |]; trivial. intros H. right. now right.
Qed.

Lemma known_fixed (pushed : bool) (s : string) :
  mem s fixed_lines = true -> known_event pushed (EvPrint s).
Proof. intros H. right. left. now apply mem_In. Qed.

Lemma known_report (pushed : bool) :
  Forall (known_event pushed) (push_report pushed).
Proof. destruct pushed; repeat constructor; simpl; tauto. Qed.

Lemma verdict_ran_other (c cmd : string) (r : exn + CompletedProcess) (t : trace) :
  c <> cmd -> verdict c (ran cmd r ++ t) = verdict c t.
Proof.
  intros Hc. rewrite verdict_ran. now destruct (String.eqb_spec c cmd).
Qed.

Lemma main_report (t : trace) :
  main_trace t -> verdict init_cmd t = Some true ->
  exists pushed,
    verdict force_push_cmd t = Some pushed /\
    Forall (known_event pushed) t /\
    incl (lines (push_report pushed)) (lines t).
Proof.
  intros Hm Hv.
  destruct (main_completes t Hm Hv) as (t0 & t' & -> & Ho & Hd).
  destruct Hd as [r1 r2 r3 r4 te rc rf tb Hs Hb].
  exists (succeeded rf). split; [| split].
  - rewrite verdict_skip
      by (rewrite (opened_commands _ _ Ho); intros [E | []]; discriminate E).
    repeat first [ rewrite verdict_ran_other by discriminate
                 | progress cbn [verdict] ].
    rewrite verdict_skip
      by (intros H; apply (staged_commands _ _ Hs) in H; revert H;
          apply mem_false; reflexivity).
    repeat first [ rewrite verdict_ran_other by discriminate
                 | progress cbn [verdict] ].
    now rewrite verdict_ran, String.eqb_refl.
  - apply Forall_app. split.
    + destruct Ho as [r | e r];
        repeat first
          [ apply (known_chatter _ (@nil string));
              [intros ? [] | apply chatter_ran]
          | apply Forall_cons; [first [exact I | apply known_fixed; reflexivity] |] ].
    + repeat first
        [ apply Forall_nil
        | apply known_report
        | apply (known_chatter _ (@nil string));
            [intros ? [] | first [apply chatter_ran | exact (staged_chatter _ _ Hs)]]
        | apply (known_chatter _ dirs_to_add);
            [apply incl_refl | exact (batched_chatter _ _ Hb)]
        | apply Forall_app; split
        | apply Forall_cons; [apply known_fixed; reflexivity |] ].
  - intros s Hin.
    repeat first [ rewrite lines_app | progress cbn [lines] ].
    repeat first [ apply in_or_app; left; exact Hin
                 | apply in_or_app; right
                 | right ].
Qed.

(** X4. In a run that passes [git init], the success line of the forced push
    is printed exactly when the forced push succeeded, and the failure line
    with the manual command exactly when it failed. *)
Theorem push_report_matches (os : Host) (w : World os) :
  verdict init_cmd (events (main os) w) = Some true ->
  exists pushed,
    verdict force_push_cmd (events (main os) w) = Some pushed /\
    (In "✅ Successfully pushed essential files!"%string
        (lines (events (main os) w)) <-> pushed = true) /\
    (In "❌ Failed to push. You may need to authenticate with GitHub."%string
        (lines (events (main os) w)) <-> pushed = false) /\
    (In "Run: git push -f origin main"%string
        (lines (events (main os) w)) <-> pushed = false).
Proof.
  intros Hv. destruct (main_shape os w) as [_ Hm].
  destruct (main_report _ Hm Hv) as (pushed & Hp & Hk & Hin).
  exists pushed. split; [exact Hp |].
  assert (Hout : forall s,
            mem s fixed_lines = false -> is_diagnostic s = false ->
            (forall q, s <> adding_line q) ->
            In s (lines (events (main os) w)) ->
            In s (lines (push_report pushed))).
  { intros s Hfix Hdiag Hadd Hs.
    destruct (lines_known _ _ _ Hk Hs) as [H | [H | [H | (q & _ & H)]]];
      trivial.
    - now apply mem_false in Hfix.
    - congruence.
    - now apply Hadd in H. }
  repeat split; intros H.
  - apply Hout in H; try reflexivity; try (intros q; discriminate).
    destruct pushed; simpl in H; intuition discriminate.
  - apply Hin. subst pushed. simpl. tauto.
  - apply Hout in H; try reflexivity; try (intros q; discriminate).
    destruct pushed; simpl in H; intuition discriminate.
  - apply Hin. subst pushed. simpl. tauto.
  - apply Hout in H; try reflexivity; try (intros q; discriminate).
    destruct pushed; simpl in H; intuition discriminate.
  - apply Hin. subst pushed. simpl. tauto.
Qed.

Lemma push_report_matches_witness :
  verdict init_cmd (events (main Sim.host) lonely) = Some true /\
  In "Run: git push -f origin main"%string
     (lines (events (main Sim.host) lonely)).
Proof.
  split; [reflexivity |].
  destruct (push_report_matches Sim.host lonely eq_refl)
    as (pushed & Hp & _ & _ & Hrun).
  apply Hrun. vm_compute in Hp. now injection Hp.
Defined.

(** *** Diagnostics *)

Lemma diagnostics_app (a b : trace) :
  diagnostics (a ++ b) = diagnostics a + diagnostics b.
Proof. unfold diagnostics. now rewrite lines_app, filter_app, length_app. Qed.

Lemma failures_app (a b : trace) :
  failures (a ++ b) = failures a + failures b.
Proof. unfold failures. now rewrite steps_app, filter_app, length_app. Qed.

Lemma balanced_app (a b : trace) :
  diagnostics a = failures a -> diagnostics b = failures b ->
  diagnostics (a ++ b) = failures (a ++ b).
Proof. intros Ha Hb. now rewrite diagnostics_app, failures_app, Ha, Hb. Qed.

Lemma balanced_ran (cmd : string) (r : exn + CompletedProcess) :
  diagnostics (ran cmd r) = failures (ran cmd r).
Proof.
  unfold diagnostics, failures. rewrite steps_ran. unfold ran.
  destruct r as [e | p]; simpl; [reflexivity |].
  now destruct (returncode p =? 0)%Z.
Qed.

Lemma balanced_print (s : string) (t : trace) :
  is_diagnostic s = false -> diagnostics t = failures t ->
  diagnostics (EvPrint s :: t) = failures (EvPrint s :: t).
Proof.
  intros Hs Ht. unfold diagnostics, failures in *.
  cbn [lines steps filter]. now rewrite Hs.
Qed.

Lemma balanced_silent (e : event) (t : trace) :
  lines [e] = [] -> steps [e] = [] -> diagnostics t = failures t ->
  diagnostics (e :: t) = failures (e :: t).
Proof.
  intros Hl Hs Ht. change (e :: t) with ([e] ++ t).
  apply balanced_app; [| exact Ht].
  unfold diagnostics, failures. now rewrite Hl, Hs.
Qed.

Lemma staged_balanced (l : list string) (t : trace) :
  staged l t -> diagnostics t = failures t.
Proof.
  induction 1 as [| f l t _ IH | f l t r _ IH].
  - reflexivity.
  - now apply balanced_silent.
  - apply balanced_silent; trivial.
    apply balanced_app; [apply balanced_ran | exact IH].
Qed.

Lemma batched_balanced (l : list string) (t : trace) :
  batched l t -> diagnostics t = failures t.
Proof.
  induction 1 as [| p l t _ IH | p l t r _ _ IH | p l t r rc rp _ _ IH].
  - reflexivity.
  - now apply balanced_silent.
  - apply balanced_silent; trivial.
    apply balanced_print; [reflexivity |].
    apply balanced_app; [apply balanced_ran | exact IH].
  - apply balanced_silent; trivial.
    apply balanced_print; [reflexivity |].
    repeat (apply balanced_app; [apply balanced_ran |]). exact IH.
Qed.

(** X5. In every run the number of calls of [print] whose text starts with
    [Error: ] or [Exception: ] equals the number of commands that failed:
    each failure is reported by one such call, and no other call of the
    script prints a text that starts that way. *)
Theorem diagnostics_match_failures (os : Host) (w : World os) :
  diagnostics (events (main os) w) = failures (events (main os) w).
Proof.
  destruct (main_shape os w) as [_ Hm].
  assert (Ho : forall b t0, opened b t0 -> diagnostics t0 = failures t0).
  { intros b t0 [r | e r];
      repeat first [ apply balanced_ran
                   | apply balanced_print; [reflexivity |]
                   | apply balanced_silent; [reflexivity | reflexivity |] ]. }
  destruct Hm as [t0 H0 | t0 t' H0 Hd]; [now apply (Ho false) |].
  apply balanced_app; [now apply (Ho true) |].
  destruct Hd as [r1 r2 r3 r4 te rc rf tb Hs Hb].
  repeat first [ exact (staged_balanced _ _ Hs)
               | exact (batched_balanced _ _ Hb)
               | apply balanced_ran
               | apply balanced_app
               | apply balanced_print; [reflexivity |] ].
  - now destruct (succeeded rf).
  - reflexivity.
Qed.

(** *** The announcements of the cycles *)

Lemma length_append (a b : string) :
  String.length (a ++ b)%string = String.length a + String.length b.
Proof. induction a as [| c a IH]; simpl; [reflexivity | now rewrite IH]. Qed.

Lemma append_inj_r (s x y : string) : (x ++ s = y ++ s)%string -> x = y.
Proof.
  revert y. induction x as [| c x IH]; intros [| d y] H; trivial.
  - apply (f_equal String.length) in H. simpl in H.
    rewrite length_append in H. lia.
  - apply (f_equal String.length) in H. simpl in H.
    rewrite length_append in H. lia.
  - simpl in H. injection H as -> H. f_equal. now apply IH.
Qed.

Lemma adding_line_inj (p q : string) : adding_line p = adding_line q -> p = q.
Proof.
  unfold adding_line. intros H. apply append_inj in H.
  now apply append_inj_r in H.
Qed.

Lemma plain_lines (a : trace) (p : string) :
  Forall plain a -> ~ In (adding_line p) (lines a).
Proof.
  induction 1 as [| e a He _ IH]; [intros [] |].
  destruct e; cbn [lines]; trivial.
  intros [E | H]; [now apply (He p) | now apply IH].
Qed.

Lemma plain_ran (cmd : string) (r : exn + CompletedProcess) :
  Forall plain (ran cmd r).
Proof.
  unfold ran. constructor; [exact I |].
  destruct r as [e | x]; simpl.
  - constructor; [intros p; discriminate | constructor].
  - destruct (returncode x =? 0)%Z; constructor;
      [intros p; discriminate | constructor].
Qed.

Lemma staged_plain (l : list string) (t : trace) :
  staged l t -> Forall plain t.
Proof.
  induction 1 as [| f l t _ IH | f l t r _ IH].
  - constructor.
  - constructor; [exact I | exact IH].
  - constructor; [exact I |].
    apply Forall_app. split; [apply plain_ran | exact IH].
Qed.

Lemma opened_plain (b : bool) (t : trace) : opened b t -> Forall plain t.
Proof.
  intros [r | e r];
    repeat first [ apply plain_ran
                 | apply Forall_cons;
                     [first [exact I | intros p; discriminate] |] ].
Qed.

Lemma batched_announced (l : list string) (t : trace) (p : string) :
  batched l t ->
  (In (adding_line p) (lines t) <-> In true (checks p t)).
Proof.
  induction 1 as [| q l t _ IH | q l t r _ _ IH | q l t r rc rp _ _ IH].
  - simpl. tauto.
  - cbn [lines checks]. destruct (String.eqb p q); [| exact IH].
    cbn [In]. split; [tauto | intros [E | H]; [discriminate | tauto]].
  - cbn [lines checks].
    rewrite lines_app, checks_app, (checks_quiet _ _ (quiet_ran _ r)).
    cbn [app In]. rewrite in_app_iff.
    pose proof (plain_lines _ p (plain_ran (stage_cmd q) r)) as Hr.
    destruct (String.eqb_spec p q) as [-> | Hpq]; cbn [In]; [tauto |].
    split; [| tauto].
    intros [E | [H | H]]; [| contradiction | tauto].
    apply adding_line_inj in E. congruence.
  - cbn [lines checks].
    rewrite !lines_app, !checks_app, !(checks_quiet _ _ (quiet_ran _ _)).
    cbn [app In]. rewrite !in_app_iff.
    pose proof (plain_lines _ p (plain_ran (stage_cmd q) r)) as Hr.
    pose proof (plain_lines _ p (plain_ran (commit_cmd q) rc)) as Hc.
    pose proof (plain_lines _ p (plain_ran push_cmd rp)) as Hp.
    destruct (String.eqb_spec p q) as [-> | Hpq]; cbn [In]; [tauto |].
    split; [| tauto].
    intros [E | [H | [H | [H | H]]]]; try contradiction; [| tauto].
    apply adding_line_inj in E. congruence.
Qed.

Lemma deployed_plain_parts (t : trace) :
  deployed t ->
  exists pre te mid tb,
    t = pre ++ te ++ mid ++ tb ++ closing /\
    staged essential_files te /\ batched dirs_to_add tb /\
    quiet pre /\ quiet mid /\ Forall plain pre /\ Forall plain mid.
Proof.
  intros [r1 r2 r3 r4 te rc rf tb Hs Hb].
  exists (ran "git config core.autocrlf false" r1 ++
          ran "git config core.filemode false" r2 ++
          ran "git config core.compression 0" r3 ++
          EvPrint "🔗 Adding GitHub remote..." ::
          ran "git remote add origin https://github.com/ehudso7/nexus-studio.git" r4 ++
          [EvPrint "📝 Adding essential files..."]),
         te,
         (EvPrint "💾 Creating initial commit..." ::
          ran initial_commit_cmd rc ++
          EvPrint "⬆️  Pushing to GitHub..." ::
          ran force_push_cmd rf ++
          push_report (succeeded rf) ++
          [EvPrint (LF ++ "📦 Adding additional files in batches...")%string]),
         tb.
  split; [| split; [exact Hs | split; [exact Hb | split; [| split; [| split]]]]].
  - repeat (rewrite <- ?app_assoc, <- ?app_comm_cons). reflexivity.
  - repeat first [ apply quiet_ran | apply Forall_nil
                 | apply Forall_app; split | apply Forall_cons; [reflexivity |] ].
  - repeat first [ apply quiet_ran | apply quiet_push_report | apply Forall_nil
                 | apply Forall_app; split | apply Forall_cons; [reflexivity |] ].
  - repeat first [ apply plain_ran | apply Forall_nil
                 | apply Forall_app; split
                 | apply Forall_cons; [intros p; discriminate |] ].
  - destruct (succeeded rf);
      repeat first [ apply plain_ran | apply Forall_nil
                   | apply Forall_app; split
                   | apply Forall_cons; [intros p; discriminate |] ].
Qed.

Lemma main_announced (t : trace) (p : string) :
  main_trace t -> In p dirs_to_add ->
  (In (adding_line p) (lines t) <-> In true (checks p t)).
Proof.
  intros Hm Hp. destruct (additional_not_essential p Hp) as [Hpe Hpg].
  destruct Hm as [t0 Ho | t0 t' Ho Hd].
  - rewrite (opened_quiet_for _ _ _ Ho Hpg).
    pose proof (plain_lines _ p (opened_plain _ _ Ho)). simpl. tauto.
  - destruct (deployed_plain_parts t' Hd)
      as (pre & te & mid & tb & -> & Hs & Hb & Qpre & Qmid & Ppre & Pmid).
    rewrite !lines_app, !checks_app, !in_app_iff.
    rewrite (opened_quiet_for _ _ _ Ho Hpg), (checks_quiet _ _ Qpre).
    rewrite (staged_checks _ _ _ Hs Hpe), (checks_quiet _ _ Qmid).
    change (checks p closing) with (@nil bool). cbn [In].
    pose proof (plain_lines _ p (opened_plain _ _ Ho)) as H0.
    pose proof (plain_lines _ p Ppre) as H1.
    pose proof (plain_lines _ p (staged_plain _ _ Hs)) as H2.
    pose proof (plain_lines _ p Pmid) as H3.
    assert (H4 : ~ In (adding_line p) (lines closing))
      by (simpl; intuition discriminate).
    pose proof (batched_announced _ _ p Hb) as H5.
    tauto.
Qed.

(** X6. The line [Adding <path>...] is printed for an additional path exactly
    when the check of that path found it. *)
Theorem cycle_announced_iff_found (os : Host) (w : World os) (p : string) :
  In p dirs_to_add ->
  (In (adding_line p) (lines (events (main os) w)) <->
   In true (checks p (events (main os) w))).
Proof.
  intros Hp. destruct (main_shape os w) as [_ Hm].
  now apply main_announced.
Qed.

Lemma cycle_announced_iff_found_witness :
  In "docs"%string dirs_to_add /\
  (In (adding_line "docs") (lines (events (main Sim.host) Scenario.rough)) <->
   In true (checks "docs" (events (main Sim.host) Scenario.rough))).
Proof.
  assert (Hin : In "docs"%string dirs_to_add) by (simpl; tauto).
  split; [exact Hin |].
  exact (cycle_announced_iff_found Sim.host Scenario.rough "docs" Hin).
Defined.

(** *** When no additional path is on disk *)

Lemma flat_map_nothing {A B : Type} (f : A -> list B) (l : list A) :
  (forall a, In a l -> f a = []) -> flat_map f l = [].
Proof.
  induction l as [| a l IH]; intros H; [reflexivity |].
  cbn [flat_map]. rewrite (H a (or_introl eq_refl)). cbn [app].
  apply IH. intros x Hx. apply H. now right.
Qed.

Lemma push_is_no_staging (l : list string) :
  count_occ string_dec (map stage_cmd l) push_cmd = 0.
Proof.
  apply count_occ_not_In. intros H. apply in_map_iff in H.
  destruct H as (x & E & _). now apply (stage_is_no_other x).
Qed.

(** X7. When none of the additional paths is found in a run that passes
    [git init], the forced push is the last command of the run: there is no
    further staging, commit or push, and no cycle is announced. *)
Theorem no_cycle_without_additional_paths (os : Host) (w : World os) :
  verdict init_cmd (events (main os) w) = Some true ->
  (forall p, In p dirs_to_add -> ~ In true (checks p (events (main os) w))) ->
  (exists front,
     commands (events (main os) w) =
     front ++ [initial_commit_cmd; force_push_cmd]) /\
  count_cmd push_cmd (events (main os) w) = 0 /\
  (forall p, In p dirs_to_add ->
             ~ In (adding_line p) (lines (events (main os) w))).
Proof.
  intros Hv Hnone. destruct (main_shape os w) as [_ Hm].
  pose proof (main_plan _ Hm) as Hplan.
  unfold passed at 1 in Hplan. rewrite Hv in Hplan. unfold plan in Hplan.
  rewrite flat_map_nothing in Hplan.
  2:{ intros p Hp. unfold cycle_plan, found_in. specialize (Hnone p Hp).
      destruct (checks p (events (main os) w)) as [| [|] rest]; trivial.
      exfalso. apply Hnone. now left. }
  rewrite app_nil_r in Hplan. split; [| split].
  - exists (init_cmd :: setup_cmds ++
            map stage_cmd (filter (found_in (events (main os) w))
                                  essential_files)).
    rewrite Hplan. cbn [app]. now rewrite <- !app_assoc.
  - unfold count_cmd. rewrite Hplan.
    change (init_cmd :: ?x) with ([init_cmd] ++ x).
    now rewrite !count_occ_app, push_is_no_staging.
  - intros p Hp H. apply (main_announced _ p Hm Hp) in H.
    now apply (Hnone p Hp).
Qed.

Lemma no_cycle_without_additional_paths_witness :
  verdict init_cmd (events (main Sim.host) lonely) = Some true /\
  (forall p, In p dirs_to_add ->
             ~ In true (checks p (events (main Sim.host) lonely))) /\
  count_cmd push_cmd (events (main Sim.host) lonely) = 0.
Proof.
  assert (Hnone : forall p, In p dirs_to_add ->
            ~ In true (checks p (events (main Sim.host) lonely))).
  { intros p Hp. simpl in Hp.
    decompose [or] Hp; subst; try contradiction;
      vm_compute; intuition discriminate. }
  split; [reflexivity | split; [exact Hnone |]].
  exact (proj1 (proj2 (no_cycle_without_additional_paths Sim.host lonely
                         eq_refl Hnone))).
Defined.

(** *** One push for each additional path staged *)

Lemma no_batch_staging (st : list (string * bool)) (allowed : list string) :
  incl (map fst st) allowed ->
  forallb (fun c => negb (mem c (map stage_cmd dirs_to_add))) allowed = true ->
  filter is_batch_staging st = [].
Proof.
  intros Hin Hall. rewrite forallb_forall in Hall.
  induction st as [| [c b] st IH]; [reflexivity |].
  cbn [filter]. unfold is_batch_staging at 1. cbn [fst snd].
  assert (Hc : negb (mem c (map stage_cmd dirs_to_add)) = true)
    by (apply Hall, Hin; now left).
  apply negb_true_iff in Hc. rewrite Hc, andb_false_r.
  apply IH. intros x Hx. apply Hin. now right.
Qed.

Lemma batched_pushes (l : list string) (t : trace) :
  batched l t -> incl l dirs_to_add ->
  count_occ string_dec (commands t) push_cmd =
  length (filter is_batch_staging (steps t)).
Proof.
  assert (Hcommit : forall p b, is_batch_staging (commit_cmd p, b) = false).
  { intros p b. unfold is_batch_staging. cbn [fst snd].
    destruct (mem (commit_cmd p) (map stage_cmd dirs_to_add)) eqn:E;
      [| apply andb_false_r].
    apply mem_In, in_map_iff in E. destruct E as (x & E & _).
    now apply (stage_is_no_other x) in E. }
  induction 1 as [| p l t _ IH | p l t r Hr _ IH | p l t r rc rp Hr _ IH];
    intros Hl; [reflexivity | | |];
    assert (Hl' : incl l dirs_to_add) by (intros x Hx; apply Hl; now right);
    assert (Hp : In p dirs_to_add) by (apply Hl; now left);
    destruct (stage_is_no_other p) as (_ & _ & Hsp);
    destruct (batch_commands_differ p) as (_ & _ & Hpc);
    rewrite ?commands_check, ?commands_print, ?commands_ran;
    rewrite ?steps_check, ?steps_print, ?steps_app, ?steps_ran;
    cbn [app filter].
  - now apply IH.
  - rewrite count_occ_cons_neq by exact Hsp.
    unfold is_batch_staging at 1. cbn [fst snd]. rewrite Hr. cbn [andb].
    now apply IH.
  - rewrite count_occ_cons_neq by exact Hsp.
    rewrite count_occ_cons_neq by (intros E; now apply Hpc).
    rewrite count_occ_cons_eq by reflexivity.
    rewrite Hcommit.
    unfold is_batch_staging at 1. cbn [fst snd]. rewrite Hr. cbn [andb].
    rewrite (proj2 (mem_In _ _) (in_map stage_cmd _ _ Hp)).
    change (is_batch_staging (push_cmd, succeeded rp)) with
      (succeeded rp && false).
    rewrite andb_false_r. cbn [length]. f_equal. now apply IH.
Qed.

(** X8. In every run the number of plain pushes ([git push origin main])
    equals the number of additional paths whose staging succeeded. *)
Theorem pushes_match_stagings (os : Host) (w : World os) :
  count_cmd push_cmd (events (main os) w) =
  batch_stagings (events (main os) w).
Proof.
  destruct (main_shape os w) as [_ Hm].
  unfold count_cmd, batch_stagings.
  destruct Hm as [t0 Ho | t0 t' Ho Hd].
  - unfold commands. now rewrite (opened_steps _ _ Ho).
  - destruct (deployed_parts t' Hd)
      as (pre & te & mid & tb & -> & Hs & Hb & _ & _ & Cpre & Cmid).
    rewrite !commands_app, !steps_app, !filter_app, !length_app,
      !count_occ_app.
    rewrite (opened_commands _ _ Ho), (opened_steps _ _ Ho), Cpre, Cmid.
    rewrite (batched_pushes _ _ Hb (incl_refl _)).
    pose proof (not_staged _ _ push_cmd Hs eq_refl) as Hte.
    unfold count_cmd in Hte. rewrite Hte.
    rewrite (no_batch_staging (steps pre) setup_cmds)
      by (first [reflexivity
                | fold (commands pre); rewrite Cpre; apply incl_refl]).
    rewrite (no_batch_staging (steps te) (map stage_cmd essential_files))
      by (first [reflexivity | exact (staged_commands _ _ Hs)]).
    rewrite (no_batch_staging (steps mid) [initial_commit_cmd; force_push_cmd])
      by (first [reflexivity
                | fold (commands mid); rewrite Cmid; apply incl_refl]).
    reflexivity.
Qed.
